(** * Flappy Bird (game.js): the simulation core, embedded and verified

    The embedding follows [game.js] function by function: [resetGame],
    [spawnPipe], [update] and [flap] act on one record holding the
    script's global variables.

    Numbers.  Every JavaScript number of the game is a double.  The
    variables that only ever receive integers (the counters, the pipe
    coordinates, the bird's fixed [x] and [radius]) are [Z]; [bird.y],
    [bird.vy], [bird.rot] and the value of [Math.random()] are exact
    rationals [Q].  From a reset every [vy] and [y] is a multiple of 1/4
    of small magnitude, on which double arithmetic is exact; [bird.rot]
    is the exact value whose nearest double the script stores.  The
    product [Math.random() * 220] of [spawnPipe] is not exact in
    doubles: it is rounded to the nearest double by [roundDouble] before
    [Math.floor] is taken.

    Effects.  [Math.random()] is an oracle: each tick carries the number
    the call returns should that tick spawn a pipe.  [playAudio] and the
    deferred [setTimeout] cue never touch the game variables; they are
    kept as a log of emitted cues. *)

From Stdlib Require Import String.
From Stdlib Require DecimalPos.
From Stdlib Require Import ZArith QArith Qround Qabs Qminmax List Bool Lia Lqa Sorted.
Import ListNotations.

Local Open Scope Z_scope.

(** ** Game constants (game.js, lines 8-19) *)

Definition WIDTH : Z := 288.
Definition HEIGHT : Z := 512.
Definition GROUND_HEIGHT : Z := 112.
Definition GRAVITY : Q := 1 # 4.
Definition JUMP : Q := - (9 # 2).
Definition PIPE_GAP : Z := 100.
Definition PIPE_DISTANCE : Z := 140.
Definition PIPE_WIDTH : Z := 52.
Definition BASE_Y : Z := HEIGHT - GROUND_HEIGHT.

(** [Math.PI / 4]: the double [Math.PI] is 884279719003555 / 2^48, and
    dividing a double by four is exact. *)
Definition PI_4 : Q := 884279719003555 # 1125899906842624.

(** ** Data *)

Inductive STATE : Type := Splash | Game | Over.

Definition STATE_eqb (a b : STATE) : bool :=
  match a, b with
  | Splash, Splash | Game, Game | Over, Over => true
  | _, _ => false
  end.

(** The cues handed to [playAudio]; [DieLater] is the ['die'] cue that
    [setTimeout] schedules 300 ms after a hit. *)
Inductive Sound : Type := Hit | DieLater | Point | Swoosh | Wing.

Module Bird.
Record t : Type := mk
  { x : Z; y : Q; vy : Q; frame : Z; rot : Q; radius : Z }.
End Bird.

(** [spawnPipe] creates a pipe without a [passed] property; [!pipe.passed]
    then reads [undefined] as false, which is the [false] of the model. *)
Module Pipe.
Record t : Type := mk
  { x : Z; top : Z; bottom : Z; passed : bool }.
End Pipe.

(** The global variables of the script, and the log of audio cues. *)
Record Session : Type := mkSession
  { gameState : STATE;
    score : Z;
    pipes : list Pipe.t;
    bird : Bird.t;
    baseX : Z;
    frame : Z;
    pipeSpawnTimer : Z;
    sounds : list Sound }.

Definition setState (s : Session) (g : STATE) : Session :=
  mkSession g (score s) (pipes s) (bird s) (baseX s) (frame s)
            (pipeSpawnTimer s) (sounds s).

Definition setScore (s : Session) (n : Z) : Session :=
  mkSession (gameState s) n (pipes s) (bird s) (baseX s) (frame s)
            (pipeSpawnTimer s) (sounds s).

Definition setPipes (s : Session) (ps : list Pipe.t) : Session :=
  mkSession (gameState s) (score s) ps (bird s) (baseX s) (frame s)
            (pipeSpawnTimer s) (sounds s).

Definition setBird (s : Session) (b : Bird.t) : Session :=
  mkSession (gameState s) (score s) (pipes s) b (baseX s) (frame s)
            (pipeSpawnTimer s) (sounds s).

Definition setBaseX (s : Session) (n : Z) : Session :=
  mkSession (gameState s) (score s) (pipes s) (bird s) n (frame s)
            (pipeSpawnTimer s) (sounds s).

Definition setFrame (s : Session) (n : Z) : Session :=
  mkSession (gameState s) (score s) (pipes s) (bird s) (baseX s) n
            (pipeSpawnTimer s) (sounds s).

Definition setTimer (s : Session) (n : Z) : Session :=
  mkSession (gameState s) (score s) (pipes s) (bird s) (baseX s) (frame s)
            n (sounds s).

(** [playAudio(name)] *)
Definition playAudio (s : Session) (c : Sound) : Session :=
  mkSession (gameState s) (score s) (pipes s) (bird s) (baseX s) (frame s)
            (pipeSpawnTimer s) (sounds s ++ [c]).

(** [a < b] on rationals, as a boolean. *)
Definition Qltb (a b : Q) : bool := negb (Qle_bool b a).

(** ** Rounding to a double *)

(** [2^e] for an integer [e] of either sign. *)
Definition pow2 (e : Z) : Q :=
  if 0 <=? e then inject_Z (2 ^ e) else 1 # Z.to_pos (2 ^ (- e)).

(** The integer nearest to [y], the even one of the two on a tie. *)
Definition roundHalfEven (y : Q) : Z :=
  let f := Qfloor y in
  match (y - inject_Z f ?= 1 # 2)%Q with
  | Lt => f
  | Gt => f + 1
  | Eq => if Z.even f then f else f + 1
  end.

(** The exponent [e] with [2^e <= x < 2^(e+1)], for [x > 0]. *)
Definition binade (x : Q) : Z :=
  if Qle_bool 1 x then Z.log2 (Qfloor x) else - Z.log2_up (Qceiling (/ x)).

(** The double nearest to [x] (IEEE 754 binary64, round to nearest, ties
    to even), for [x] below the overflow threshold: 53 significant
    bits, and steps of [2^-1074] in the subnormal range. *)
Definition roundDouble (x : Q) : Q :=
  let a := Qabs x in
  let u := Z.max (binade a - 52) (-1074) in
  let m := roundHalfEven (a / pow2 u) in
  ((if Qle_bool 0 x then inject_Z m else - inject_Z m) * pow2 u)%Q.

(** A number with at most 53 significant bits; every double is one. *)
Definition isDouble (x : Q) : Prop :=
  exists m e : Z, Z.abs m < 2 ^ 53 /\ (x == inject_Z m * pow2 e)%Q.

(** The largest double below 1, [1 - 2^-53]. *)
Definition maxRandom : Q := 9007199254740991 # 9007199254740992.

(** ** resetGame (lines 97-111) *)

Definition resetGame (s : Session) : Session :=
  {| gameState := gameState s;
     score := 0;
     pipes := [];
     bird := {| Bird.x := 60;
                Bird.y := inject_Z HEIGHT / 2;
                Bird.vy := 0;
                Bird.frame := 0;
                Bird.rot := 0;
                Bird.radius := 12 |};
     baseX := 0;
     frame := 0;
     pipeSpawnTimer := 0;
     sounds := sounds s |}.

(** ** spawnPipe (lines 114-121); [r] is the value of [Math.random()] *)

(** The product of line 115 is a double product, so it is rounded before
    [Math.floor] sees it; the floor and the sum with 40 are exact. *)
Definition spawnPipe (s : Session) (r : Q) : Session :=
  let topY :=
    Qfloor (roundDouble
              (r * inject_Z (HEIGHT - GROUND_HEIGHT - PIPE_GAP - 80))) + 40 in
  setPipes s (pipes s ++ [ {| Pipe.x := WIDTH;
                              Pipe.top := topY;
                              Pipe.bottom := topY + PIPE_GAP;
                              Pipe.passed := false |} ]).

(** ** update (lines 204-256), block by block *)

(** Animation frames, named as the comments of lines 211-213 name them. *)
Definition Upflap : Z := 0.
Definition Downflap : Z := 1.
Definition Midflap : Z := 2.

(** Lines 208-215: gravity, position, animation frame, tilt. *)
Definition birdPhysics (b : Bird.t) : Bird.t :=
  let vy' := (Bird.vy b + GRAVITY)%Q in
  let y' := (Bird.y b + vy')%Q in
  let frame' :=
    if Qle_bool JUMP vy' then Downflap
    else if Qltb vy' 0 then Upflap
    else Midflap in
  {| Bird.x := Bird.x b;
     Bird.y := y';
     Bird.vy := vy';
     Bird.frame := frame';
     Bird.rot := Qmin PI_4 (vy' / 10);
     Bird.radius := Bird.radius b |}.

(** Line 223: [pipe.x -= 2]. *)
Definition movePipe (p : Pipe.t) : Pipe.t :=
  {| Pipe.x := Pipe.x p - 2;
     Pipe.top := Pipe.top p;
     Pipe.bottom := Pipe.bottom p;
     Pipe.passed := Pipe.passed p |}.

(** Lines 218-222: the spawn timer. *)
Definition spawnStep (s : Session) (r : Q) : Session :=
  let s1 := setTimer s (pipeSpawnTimer s + 1) in
  if PIPE_DISTANCE <? pipeSpawnTimer s1
  then setTimer (spawnPipe s1 r) 0
  else s1.

(** Line 225: [if (pipes.length && pipes[0].x < -PIPE_WIDTH) pipes.shift()]. *)
Definition shiftOffscreen (ps : list Pipe.t) : list Pipe.t :=
  match ps with
  | p :: rest => if Pipe.x p <? - PIPE_WIDTH then rest else ps
  | [] => ps
  end.

(** Lines 218-225. *)
Definition pipesLogic (s : Session) (r : Q) : Session :=
  let s2 := spawnStep s r in
  setPipes s2 (shiftOffscreen (map movePipe (pipes s2))).

(** Line 230 and line 232: the two overlap tests of the collision check. *)
Definition inPipeXRange (b : Bird.t) (p : Pipe.t) : bool :=
  (Pipe.x p <? Bird.x b + Bird.radius b)
  && (Bird.x b - Bird.radius b <? Pipe.x p + PIPE_WIDTH).

Definition outsideGap (b : Bird.t) (p : Pipe.t) : bool :=
  Qltb (Bird.y b - inject_Z (Bird.radius b)) (inject_Z (Pipe.top p))
  || Qltb (inject_Z (Pipe.bottom p)) (Bird.y b + inject_Z (Bird.radius b)).

(** Line 239: [!pipe.passed && bird.x > pipe.x + PIPE_WIDTH]. *)
Definition justPassed (b : Bird.t) (p : Pipe.t) : bool :=
  negb (Pipe.passed p) && (Pipe.x p + PIPE_WIDTH <? Bird.x b).

(** Lines 233-235 and 248-250: the state change and the two cues. *)
Definition gameOver (s : Session) : Session :=
  playAudio (playAudio (setState s Over) Hit) DieLater.

(** Lines 229-243: the body of the second [pipes.forEach], for one pipe.
    It returns the globals and the pipe as the body leaves them. *)
Definition checkPipe (s : Session) (p : Pipe.t) : Session * Pipe.t :=
  let s1 :=
    if inPipeXRange (bird s) p && outsideGap (bird s) p
    then gameOver s else s in
  if justPassed (bird s1) p
  then (playAudio (setScore s1 (score s1 + 1)) Point,
        {| Pipe.x := Pipe.x p;
           Pipe.top := Pipe.top p;
           Pipe.bottom := Pipe.bottom p;
           Pipe.passed := true |})
  else (s1, p).

(** Lines 228-244: the loop, over the pipes in array order. *)
Fixpoint checkPipes (s : Session) (ps : list Pipe.t) : Session * list Pipe.t :=
  match ps with
  | [] => (s, [])
  | p :: rest =>
      let (s1, p') := checkPipe s p in
      let (s2, rest') := checkPipes s1 rest in
      (s2, p' :: rest')
  end.

Definition collisions (s : Session) : Session :=
  let (s1, ps) := checkPipes s (pipes s) in
  setPipes s1 ps.

(** Lines 246-251: collision with the ground. *)
Definition groundCollision (s : Session) : Session :=
  let b := bird s in
  if Qltb (inject_Z BASE_Y) (Bird.y b + inject_Z (Bird.radius b))
  then gameOver
         (setBird s {| Bird.x := Bird.x b;
                       Bird.y := inject_Z BASE_Y - inject_Z (Bird.radius b);
                       Bird.vy := Bird.vy b;
                       Bird.frame := Bird.frame b;
                       Bird.rot := Bird.rot b;
                       Bird.radius := Bird.radius b |})
  else s.

(** Lines 206-252: what a tick does when [gameState === STATE.Game]. *)
Definition playTick (s : Session) (r : Q) : Session :=
  groundCollision
    (collisions (pipesLogic (setBird s (birdPhysics (bird s))) r)).

(** [update()]; JavaScript's [%] takes the sign of the dividend, as
    [Z.rem] does. *)
Definition update (s : Session) (r : Q) : Session :=
  let s1 := setFrame s (frame s + 1) in
  let s2 := match gameState s1 with
            | Game => playTick s1 r
            | _ => s1
            end in
  setBaseX s2 (Z.rem (baseX s2 - 2) WIDTH).

(** ** flap (lines 277-291) *)

Definition setVy (b : Bird.t) (v : Q) : Bird.t :=
  {| Bird.x := Bird.x b;
     Bird.y := Bird.y b;
     Bird.vy := v;
     Bird.frame := Bird.frame b;
     Bird.rot := Bird.rot b;
     Bird.radius := Bird.radius b |}.

Definition flap (s : Session) : Session :=
  match gameState s with
  | Splash =>
      let s1 := setState (resetGame s) Game in
      playAudio (setBird s1 (setVy (bird s1) JUMP)) Wing
  | Game => playAudio (setBird s (setVy (bird s) JUMP)) Wing
  | Over => playAudio (setState (resetGame s) Splash) Swoosh
  end.

(** ** The event loop *)

(** The two inputs of the core: a frame of [loop] (with the oracle value
    for [Math.random()]) and a key press or click. *)
Inductive Event : Type :=
| Tick (r : Q)
| Activate.

Definition step (s : Session) (e : Event) : Session :=
  match e with
  | Tick r => update s r
  | Activate => flap s
  end.

Definition run (s : Session) (evs : list Event) : Session :=
  fold_left step evs s.

(** [Math.random()] returns a double in [0, 1), so a number from 0 to
    [maxRandom] (see [double_below_one]). *)
Definition okEvent (e : Event) : bool :=
  match e with
  | Tick r => Qle_bool 0 r && Qle_bool r maxRandom
  | Activate => true
  end.

(** The globals as [resetGame] leaves them, in game state [g] and with
    cue log [l]. *)
Definition fresh (g : STATE) (l : list Sound) : Session :=
  resetGame (mkSession g 0 [] (Bird.mk 0 0 0 0 0 0) 0 0 0 l).

(** The session when the first frame runs: [loadAssets]' callback has
    called [resetGame] (lines 303-306). *)
Definition start : Session := fresh Splash [].

(** The input listeners are installed before the assets have loaded
    (lines 296-300), so a click may already have moved [gameState] to
    [Game] when the callback resets the other variables; [Over] is only
    set by [update], which has not run yet. *)
Definition reachable (s : Session) : Prop :=
  exists g l evs,
    g <> Over /\ forallb okEvent evs = true /\ s = run (fresh g l) evs.

(** Every event of the list finds the game in state [Game]. *)
Fixpoint alwaysPlaying (s : Session) (evs : list Event) : bool :=
  match evs with
  | [] => true
  | e :: rest => STATE_eqb (gameState s) Game && alwaysPlaying (step s e) rest
  end.

(** The number of frames in an event list. *)
Fixpoint ticks (evs : list Event) : nat :=
  match evs with
  | [] => 0
  | Tick _ :: rest => S (ticks rest)
  | Activate :: rest => ticks rest
  end.

(** The frame selection with the test [vy < 0] first and [vy >= JUMP]
    second: rising while the velocity is negative.  It is not the order
    of lines 211-213, which [birdPhysics] follows. *)
Definition phaseRisingFirst (v : Q) : Z :=
  if Qltb v 0 then Upflap
  else if Qle_bool JUMP v then Downflap
  else Midflap.

(** A player who presses the key and then lets 35 frames pass, over and
    over: the bird returns to its height after each round, and with
    [Math.random()] at 13/20 every gap (183 to 283) contains its path
    (the double nearest to 13/20 gives the same gap). *)
Definition steadyRound : list Event :=
  Activate :: repeat (Tick (13 # 20)) 35.

Definition steadyPlay (k : nat) : list Event :=
  concat (repeat steadyRound k).

(** ** The pipe train *)

(** Successive spawns are [PIPE_DISTANCE + 1] ticks apart, and a pipe
    moves two pixels per tick. *)
Definition SPACING : Z := 2 * (PIPE_DISTANCE + 1).

(** [n] coordinates starting at [a], each [SPACING] right of the one
    before. *)
Fixpoint xsFrom (a : Z) (n : nat) : list Z :=
  match n with
  | O => []
  | S k => a :: xsFrom (a + SPACING) k
  end.

(** What lines 218-225 do to the spawn timer and to the list of the
    pipes' [x] coordinates (see [update_timer_xs]). *)
Definition dropFront (xs : list Z) : list Z :=
  match xs with
  | a :: rest => if a <? - PIPE_WIDTH then rest else xs
  | [] => xs
  end.

Definition xsTick (c : Z * list Z) : Z * list Z :=
  let (t, xs) := c in
  let c1 := if PIPE_DISTANCE <? t + 1 then (0, xs ++ [WIDTH]) else (t + 1, xs) in
  (fst c1, dropFront (map (fun v => v - 2) (snd c1))).

Definition timerXs (s : Session) : Z * list Z :=
  (pipeSpawnTimer s, map Pipe.x (pipes s)).

(** The [x] of the oldest of [n] pipes when the newest was spawned [t]
    ticks before the last tick. *)
Definition firstX (t : Z) (n : nat) : Z :=
  WIDTH - 2 * (t + 1) - SPACING * (Z.of_nat n - 1).

(** The shape of the pipes in every reachable session: the bird stays at
    [x = 60]; the timer is within its period; the pipes are evenly
    spaced, the newest where its age puts it and the oldest not yet off
    screen; and a pipe is marked exactly when the bird's [x] is beyond
    its right edge. *)
Definition pipeInv (s : Session) : Prop :=
  Bird.x (bird s) = 60
  /\ 0 <= pipeSpawnTimer s <= PIPE_DISTANCE
  /\ (exists n : nat,
         - PIPE_WIDTH <= firstX (pipeSpawnTimer s) n
         /\ map Pipe.x (pipes s) = xsFrom (firstX (pipeSpawnTimer s) n) n)
  /\ Forall (fun p => Pipe.passed p = (Pipe.x p + PIPE_WIDTH <? Bird.x (bird s)))
            (pipes s).

(** What lines 239-243 do to one pipe when the bird is [b]. *)
Definition markPassed (b : Bird.t) (p : Pipe.t) : Pipe.t :=
  if justPassed b p
  then {| Pipe.x := Pipe.x p;
          Pipe.top := Pipe.top p;
          Pipe.bottom := Pipe.bottom p;
          Pipe.passed := true |}
  else p.

(** The variables a loop body cannot change. *)
Definition sameFrame (s s' : Session) : Prop :=
  bird s' = bird s /\ pipes s' = pipes s /\ baseX s' = baseX s
  /\ frame s' = frame s /\ pipeSpawnTimer s' = pipeSpawnTimer s.

(** * The rest of the script *)

(** ** Asset loading (lines 24-85) *)

(** A value of [spriteNames]: one path, or an array of paths. *)
Inductive SpriteSource : Type :=
| Single (src : string)
| Frames (srcs : list string).

Local Open Scope string_scope.

Definition spriteNames : list (string * SpriteSource) :=
  [ ("background", Single "sprites/background-day.png");
    ("base", Single "sprites/base.png");
    ("bird", Frames [ "sprites/yellowbird-upflap.png";
                      "sprites/yellowbird-midflap.png";
                      "sprites/yellowbird-downflap.png" ]);
    ("pipeTop", Single "sprites/pipe-green.png");
    ("pipeBottom", Single "sprites/pipe-green.png");
    ("message", Single "sprites/message.png");
    ("gameover", Single "sprites/gameover.png");
    ("numbers", Frames [ "sprites/0.png"; "sprites/1.png"; "sprites/2.png";
                         "sprites/3.png"; "sprites/4.png"; "sprites/5.png";
                         "sprites/6.png"; "sprites/7.png"; "sprites/8.png";
                         "sprites/9.png" ]) ].

Definition audioNames : list (string * string) :=
  [ ("die", "audio/die.wav");
    ("hit", "audio/hit.wav");
    ("point", "audio/point.wav");
    ("swoosh", "audio/swoosh.wav");
    ("wing", "audio/wing.wav") ].

(** The name under which [update] and [flap] ask for each cue. *)
Definition cueName (c : Sound) : string :=
  match c with
  | Hit => "hit"
  | DieLater => "die"
  | Point => "point"
  | Swoosh => "swoosh"
  | Wing => "wing"
  end.

Local Close Scope string_scope.

(** Line 58: [Object.keys(spriteNames).length +
    Object.keys(audioNames).length]. *)
Definition totalOf (sp : list (string * SpriteSource))
                   (au : list (string * string)) : Z :=
  Z.of_nat (length sp + length au).

(** The [Image] objects lines 61-78 create for one entry. *)
Definition imagesOf (e : SpriteSource) : nat :=
  match e with
  | Single _ => 1
  | Frames srcs => length srcs
  end.

(** The assets [loadAssets] requests, one load handler each: the images
    of lines 61-78 and the audio elements of lines 80-84. *)
Definition handlersOf (sp : list (string * SpriteSource))
                      (au : list (string * string)) : nat :=
  list_sum (map (fun kv => imagesOf (snd kv)) sp) + length au.

(** The local counter [loaded] of [loadAssets], and how many times the
    callback has been called. *)
Record Loader : Type := mkLoader { loaded : Z; started : nat }.

Definition loaderInit : Loader := mkLoader 0 0.

(** The body of every handler (lines 68, 75 and 82):
    [loaded++; if (loaded === total) callback()]. *)
Definition assetLoaded (total : Z) (l : Loader) : Loader :=
  let n := loaded l + 1 in
  mkLoader n (if n =? total then S (started l) else started l).

(** The keys of [audios] once [loadAssets] has run (line 83), and the
    guard [if (audios[name])] of [playAudio] (line 197). *)
Definition audiosHas (name : string) : bool :=
  existsb (String.eqb name) (map fst audioNames).

(** ** Drawing (lines 129-183) *)

(** [drawBase]: where the two copies of the ground are drawn. *)
Definition drawBase (s : Session) : list (Z * Z) :=
  [ (baseX s, BASE_Y); (baseX s + WIDTH, BASE_Y) ].

(** Line 136: the index [Math.floor(bird.frame/5)%3] into [sprites.bird]. *)
Definition birdSpriteIndex (b : Bird.t) : Z :=
  Z.rem (Qfloor (inject_Z (Bird.frame b) / 5)) 3.

(** [score.toString()] read character by character through [+scoreStr[i]]:
    the decimal digits of a non-negative score.  A negative score gives a
    leading minus sign, for which [sprites.numbers[NaN]] is [undefined]
    and reading its [width] throws: [None]. *)
Fixpoint digitsOf (u : Decimal.uint) : list Z :=
  match u with
  | Decimal.Nil => []
  | Decimal.D0 r => 0 :: digitsOf r
  | Decimal.D1 r => 1 :: digitsOf r
  | Decimal.D2 r => 2 :: digitsOf r
  | Decimal.D3 r => 3 :: digitsOf r
  | Decimal.D4 r => 4 :: digitsOf r
  | Decimal.D5 r => 5 :: digitsOf r
  | Decimal.D6 r => 6 :: digitsOf r
  | Decimal.D7 r => 7 :: digitsOf r
  | Decimal.D8 r => 8 :: digitsOf r
  | Decimal.D9 r => 9 :: digitsOf r
  end.

Definition scoreDigits (n : Z) : option (list Z) :=
  match Z.to_int n with
  | Decimal.Pos u => Some (digitsOf u)
  | Decimal.Neg _ => None
  end.

(** Lines 174-177: the summed width of the glyphs; [w d] is
    [sprites.numbers[d].width]. *)
Definition glyphsWidth (w : Z -> Z) (ds : list Z) : Z :=
  fold_left (fun acc d => acc + w d) ds 0.

(** Lines 179-182: one [drawImage(glyph, x, 50)] per digit. *)
Fixpoint placeGlyphs (w : Z -> Z) (x : Q) (ds : list Z) : list (Z * Q * Z) :=
  match ds with
  | [] => []
  | d :: rest => (d, x, 50) :: placeGlyphs w (x + inject_Z (w d)) rest
  end.

(** [drawScore]: the glyphs drawn, each with its position. *)
Definition drawScore (w : Z -> Z) (s : Session) : option (list (Z * Q * Z)) :=
  match scoreDigits (score s) with
  | None => None
  | Some ds =>
      Some (placeGlyphs w ((inject_Z WIDTH - inject_Z (glyphsWidth w ds)) / 2) ds)
  end.

(** The draw calls [calls] tile the row from [x] to [xe] at height 50:
    each glyph starts where the one before it ends. *)
Fixpoint tilesRow (w : Z -> Z) (x : Q) (calls : list (Z * Q * Z)) (xe : Q) : Prop :=
  match calls with
  | [] => x == xe
  | (d, x', y) :: rest =>
      x' == x /\ y = 50 /\ 0 <= d <= 9 /\ tilesRow w (x + inject_Z (w d)) rest xe
  end.

(** ** Collisions and cues *)

(** Lines 230-232: the bird [b] hits the pipe [p]. *)
Definition collides (b : Bird.t) (p : Pipe.t) : bool :=
  inPipeXRange b p && outsideGap b p.

(** Line 246. *)
Definition hitsGround (b : Bird.t) : bool :=
  Qltb (inject_Z BASE_Y) (Bird.y b + inject_Z (Bird.radius b)).

(** The cues the loop body of lines 229-243 emits for one pipe. *)
Definition pipeCues (b : Bird.t) (p : Pipe.t) : list Sound :=
  (if collides b p then [Hit; DieLater] else [])
  ++ (if justPassed b p then [Point] else []).

Definition Sound_eqb (a b : Sound) : bool :=
  match a, b with
  | Hit, Hit | DieLater, DieLater | Point, Point
  | Swoosh, Swoosh | Wing, Wing => true
  | _, _ => false
  end.

(** How many times the cue [c] occurs in a log. *)
Definition countCue (c : Sound) (l : list Sound) : nat :=
  length (filter (Sound_eqb c) l).

(** ** More of what every reachable session satisfies *)

Definition birdInv (s : Session) : Prop :=
  Bird.radius (bird s) = 12
  /\ (JUMP <= Bird.vy (bird s))%Q
  /\ (Bird.y (bird s) + inject_Z (Bird.radius (bird s)) <= inject_Z BASE_Y)%Q
  /\ (Bird.frame (bird s) = Upflap \/ Bird.frame (bird s) = Downflap)
  /\ (- (17 # 40) <= Bird.rot (bird s) <= PI_4)%Q.

Definition counterInv (s : Session) : Prop :=
  0 <= score s /\ 0 <= frame s /\ baseX s = - ((2 * frame s) mod WIDTH).

(** The gap of a pipe as [spawnPipe] makes it. *)
Definition gapOk (p : Pipe.t) : Prop :=
  40 <= Pipe.top p < 260 /\ Pipe.bottom p = Pipe.top p + PIPE_GAP.


(** ** drawPipes (lines 145-169) *)

Definition PIPE_HEIGHT : Z := 320.

(** The calls [drawPipes] makes on the 2D context. *)
Inductive CanvasOp : Type :=
| Save
| Restore
| Translate (x y : Z)
| Scale (x y : Z)
| DrawImage (img : string) (dx dy dw dh : Z).

Local Open Scope string_scope.

(** The body of the [forEach] of [drawPipes], for one pipe.  The halves
    [PIPE_WIDTH / 2] and [PIPE_HEIGHT / 2] are whole numbers. *)
Definition drawPipe (p : Pipe.t) : list CanvasOp :=
  [ Save;
    Translate (Pipe.x p + PIPE_WIDTH / 2)
              (Pipe.top p - PIPE_HEIGHT + PIPE_HEIGHT / 2);
    Scale 1 (-1);
    DrawImage "pipeTop" (- PIPE_WIDTH / 2) (- PIPE_HEIGHT / 2)
              PIPE_WIDTH PIPE_HEIGHT;
    Restore;
    DrawImage "pipeBottom" (Pipe.x p) (Pipe.bottom p) PIPE_WIDTH PIPE_HEIGHT ].

Local Close Scope string_scope.

Definition drawPipes (s : Session) : list CanvasOp :=
  flat_map drawPipe (pipes s).

(** The part of the canvas 2D context these calls use, as the HTML
    standard defines it for transforms without rotation: the current
    transform maps a point [(u, v)] to
    [(originX + scaleX * u, originY + scaleY * v)]; [translate] and
    [scale] act in the current coordinates; [save] and [restore] push
    and pop the transform; [drawImage] covers the image of its
    destination rectangle. *)
Record Transform : Type := mkTransform
  { scaleX : Z; scaleY : Z; originX : Z; originY : Z }.

Record Painted : Type := mkPainted
  { image : string; xMin : Z; xMax : Z; yMin : Z; yMax : Z }.

Record Canvas : Type := mkCanvas
  { current : Transform; saved : list Transform; painted : list Painted }.

Definition identity : Transform := mkTransform 1 1 0 0.

Definition blank : Canvas := mkCanvas identity [] [].

Definition canvasOp (c : Canvas) (op : CanvasOp) : Canvas :=
  let t := current c in
  match op with
  | Save => mkCanvas t (t :: saved c) (painted c)
  | Restore =>
      match saved c with
      | [] => c
      | t' :: rest => mkCanvas t' rest (painted c)
      end
  | Translate x y =>
      mkCanvas (mkTransform (scaleX t) (scaleY t)
                            (originX t + scaleX t * x)
                            (originY t + scaleY t * y))
               (saved c) (painted c)
  | Scale x y =>
      mkCanvas (mkTransform (scaleX t * x) (scaleY t * y)
                            (originX t) (originY t))
               (saved c) (painted c)
  | DrawImage img dx dy dw dh =>
      let x1 := originX t + scaleX t * dx in
      let x2 := originX t + scaleX t * (dx + dw) in
      let y1 := originY t + scaleY t * dy in
      let y2 := originY t + scaleY t * (dy + dh) in
      mkCanvas t (saved c)
               (painted c ++ [ mkPainted img (Z.min x1 x2) (Z.max x1 x2)
                                         (Z.min y1 y2) (Z.max y1 y2) ])
  end.

Definition paint (ops : list CanvasOp) (c : Canvas) : Canvas :=
  fold_left canvasOp ops c.

(** The bird's bounding box and a painted rectangle share an area. *)
Definition overlaps (b : Bird.t) (k : Painted) : Prop :=
  xMin k < Bird.x b + Bird.radius b
  /\ Bird.x b - Bird.radius b < xMax k
  /\ (inject_Z (yMin k) < Bird.y b + inject_Z (Bird.radius b))%Q
  /\ (Bird.y b - inject_Z (Bird.radius b) < inject_Z (yMax k))%Q.

(** While the game is in play the frame counter fixes the spawn timer
    and the score, and tells whether a pipe has been spawned yet. *)
Definition frameRel (s : Session) : Prop :=
  pipeSpawnTimer s = frame s mod (PIPE_DISTANCE + 1)
  /\ score s = Z.max 0 ((frame s + 1) / (PIPE_DISTANCE + 1) - 1)
  /\ (frame s < PIPE_DISTANCE + 1 <-> pipes s = []).

Definition playInv (s : Session) : Prop :=
  gameState s = Game -> frameRel s.

(** On the splash screen the bird rests at its start pose and nothing of
    a game is left. *)
Definition splashInv (s : Session) : Prop :=
  gameState s = Splash ->
  bird s = bird start /\ score s = 0 /\ pipes s = []
  /\ pipeSpawnTimer s = 0.

(** The number a row of decimal digits spells. *)
Definition digitsValue (ds : list Z) : Z :=
  fold_left (fun acc d => 10 * acc + d) ds 0.

(** * Basic facts *)

Lemma Qltb_lt (a b : Q) : Qltb a b = true <-> (a < b)%Q.
Proof.
  unfold Qltb. rewrite negb_true_iff. split; intro H.
  - apply Qnot_le_lt. intro L. apply Qle_bool_iff in L. congruence.
  - destruct (Qle_bool b a) eqn:E; [ | reflexivity ].
    apply Qle_bool_iff in E. exfalso. exact (Qlt_not_le _ _ H E).
Qed.

Lemma Qltb_ge (a b : Q) : Qltb a b = false <-> (b <= a)%Q.
Proof.
  unfold Qltb. rewrite negb_false_iff. apply Qle_bool_iff.
Qed.

Lemma STATE_eqb_eq (a b : STATE) : STATE_eqb a b = true <-> a = b.
Proof. destruct a, b; simpl; split; congruence. Qed.

Lemma BASE_Y_value : BASE_Y = 400.
Proof. reflexivity. Qed.

(** Splits on the ground test of line 246. *)
Ltac case_ground :=
  match goal with |- context [Qltb ?a ?b] => destruct (Qltb a b) end.

(** ** What the collision loop leaves alone *)

Lemma sameFrame_refl s : sameFrame s s.
Proof. repeat split. Qed.

Lemma sameFrame_trans s1 s2 s3 :
  sameFrame s1 s2 -> sameFrame s2 s3 -> sameFrame s1 s3.
Proof.
  unfold sameFrame. intros (A1 & A2 & A3 & A4 & A5) (B1 & B2 & B3 & B4 & B5).
  repeat split; congruence.
Qed.

Lemma checkPipe_frame s p : sameFrame s (fst (checkPipe s p)).
Proof.
  unfold checkPipe.
  destruct (inPipeXRange (bird s) p && outsideGap (bird s) p);
    match goal with |- context [justPassed ?b p] => destruct (justPassed b p) end;
    repeat split.
Qed.

Lemma checkPipes_frame ps : forall s, sameFrame s (fst (checkPipes s ps)).
Proof.
  induction ps as [ | p rest IH ]; intro s; simpl.
  - apply sameFrame_refl.
  - pose proof (checkPipe_frame s p) as F.
    destruct (checkPipe s p) as [s1 p'] eqn:E1. simpl in F.
    specialize (IH s1).
    destruct (checkPipes s1 rest) as [s2 rest'] eqn:E2. simpl in *.
    eapply sameFrame_trans; eassumption.
Qed.

Lemma checkPipe_x s p : Pipe.x (snd (checkPipe s p)) = Pipe.x p.
Proof.
  unfold checkPipe.
  match goal with |- context [justPassed ?b p] => destruct (justPassed b p) end;
    reflexivity.
Qed.

Lemma checkPipes_xs ps :
  forall s, map Pipe.x (snd (checkPipes s ps)) = map Pipe.x ps.
Proof.
  induction ps as [ | p rest IH ]; intro s; simpl.
  - reflexivity.
  - pose proof (checkPipe_x s p) as X.
    destruct (checkPipe s p) as [s1 p'] eqn:E1. simpl in X.
    specialize (IH s1).
    destruct (checkPipes s1 rest) as [s2 rest'] eqn:E2. simpl in *.
    congruence.
Qed.

Lemma collisions_bird s : bird (collisions s) = bird s.
Proof.
  unfold collisions. pose proof (checkPipes_frame (pipes s) s) as F.
  destruct (checkPipes s (pipes s)) as [s1 ps]. simpl in *. apply F.
Qed.

Lemma collisions_timer s : pipeSpawnTimer (collisions s) = pipeSpawnTimer s.
Proof.
  unfold collisions. pose proof (checkPipes_frame (pipes s) s) as F.
  destruct (checkPipes s (pipes s)) as [s1 ps]. simpl in *. apply F.
Qed.

Lemma collisions_xs s :
  map Pipe.x (pipes (collisions s)) = map Pipe.x (pipes s).
Proof.
  unfold collisions. pose proof (checkPipes_xs (pipes s) s) as X.
  destruct (checkPipes s (pipes s)) as [s1 ps]. simpl in *. exact X.
Qed.

Lemma spawnStep_bird s r : bird (spawnStep s r) = bird s.
Proof.
  unfold spawnStep. simpl. destruct (PIPE_DISTANCE <? pipeSpawnTimer s + 1); reflexivity.
Qed.

Lemma pipesLogic_bird s r : bird (pipesLogic s r) = bird s.
Proof. unfold pipesLogic. simpl. apply spawnStep_bird. Qed.

Lemma groundCollision_vy s :
  Bird.vy (bird (groundCollision s)) = Bird.vy (bird s).
Proof.
  unfold groundCollision.
  case_ground; reflexivity.
Qed.

Lemma groundCollision_pipes s : pipes (groundCollision s) = pipes s.
Proof.
  unfold groundCollision.
  case_ground; reflexivity.
Qed.

Lemma groundCollision_timer s :
  pipeSpawnTimer (groundCollision s) = pipeSpawnTimer s.
Proof.
  unfold groundCollision.
  case_ground; reflexivity.
Qed.

(** The collision blocks leave the timer and the pipes' places alone. *)
Create Rewrite HintDb tick.
#[local] Hint Rewrite groundCollision_timer groundCollision_pipes
  collisions_timer collisions_xs : tick.

Lemma groundCollision_bird_ext s s' :
  bird s = bird s' -> bird (groundCollision s) = bird (groundCollision s').
Proof.
  intro E. unfold groundCollision. rewrite E.
  destruct (Qltb (inject_Z BASE_Y) (Bird.y (bird s') + inject_Z (Bird.radius (bird s'))));
    simpl; [ reflexivity | exact E ].
Qed.

(** The bird at the end of a tick in state [Game]: the physics step,
    then the clamp of the ground collision. *)
Lemma playTick_bird s r :
  bird (playTick s r) = bird (groundCollision (setBird s (birdPhysics (bird s)))).
Proof.
  unfold playTick, groundCollision.
  rewrite collisions_bird, pipesLogic_bird. simpl.
  match goal with |- context [Qltb ?a ?b] => destruct (Qltb a b) end; simpl;
    [ reflexivity | ].
  rewrite collisions_bird, pipesLogic_bird. reflexivity.
Qed.

(** ** A tick in state [Game] *)

Section GameTick.

Variable s : Session.
Variable r : Q.
Hypothesis playing : gameState s = Game.

Lemma update_Game :
  update s r =
  setBaseX (playTick (setFrame s (frame s + 1)) r)
           (Z.rem (baseX (playTick (setFrame s (frame s + 1)) r) - 2) WIDTH).
Proof. unfold update. simpl. rewrite playing. reflexivity. Qed.

Lemma update_Game_bird :
  bird (update s r) = bird (groundCollision (setBird s (birdPhysics (bird s)))).
Proof.
  rewrite update_Game. simpl. rewrite playTick_bird.
  apply groundCollision_bird_ext. reflexivity.
Qed.

Lemma update_Game_vy :
  Bird.vy (bird (update s r)) = (Bird.vy (bird s) + GRAVITY)%Q.
Proof. rewrite update_Game_bird, groundCollision_vy. reflexivity. Qed.

Lemma update_Game_bird_x : Bird.x (bird (update s r)) = Bird.x (bird s).
Proof.
  rewrite update_Game_bird. unfold groundCollision. case_ground; reflexivity.
Qed.

End GameTick.

Lemma alwaysPlaying_head s e evs :
  alwaysPlaying s (e :: evs) = true ->
  gameState s = Game /\ alwaysPlaying (step s e) evs = true.
Proof.
  simpl. intro H. apply andb_true_iff in H. destruct H as [H1 H2].
  apply STATE_eqb_eq in H1. split; assumption.
Qed.

Lemma run_cons s e evs : run s (e :: evs) = run (step s e) evs.
Proof. reflexivity. Qed.

Lemma vy_after_ticks rs :
  forall s,
    alwaysPlaying s (map Tick rs) = true ->
    (Bird.vy (bird (run s (map Tick rs)))
     == Bird.vy (bird s) + inject_Z (Z.of_nat (length rs)) * GRAVITY)%Q.
Proof.
  induction rs as [ | r rest IH ]; intros s H.
  - simpl. ring.
  - change (map Tick (r :: rest)) with (Tick r :: map Tick rest) in *.
    apply alwaysPlaying_head in H. destruct H as [G H].
    rewrite run_cons. simpl step in *.
    rewrite (IH _ H), (update_Game_vy s r G).
    change (length (r :: rest)) with (S (length rest)).
    rewrite Nat2Z.inj_succ. unfold Z.succ. rewrite inject_Z_plus. ring.
Qed.

(** * The physics step *)

(** C1.  In a tick taken in state [Game] the physics step first adds
    [GRAVITY] (1/4) to the vertical velocity and then adds the new
    velocity to [y]; the velocity at the end of the tick is the old one
    plus [GRAVITY], the position is the one of the physics step unless
    the ground collision clamps it, and over consecutive ticks in state
    [Game] with no key press the velocity grows by [GRAVITY] per tick. *)
Theorem physics_gravity_then_position :
  forall (s : Session) (r : Q) (rs : list Q),
    alwaysPlaying s (map Tick (r :: rs)) = true ->
    (GRAVITY == 1 # 4)%Q
    /\ Bird.vy (birdPhysics (bird s)) = (Bird.vy (bird s) + GRAVITY)%Q
    /\ Bird.y (birdPhysics (bird s))
       = (Bird.y (bird s) + Bird.vy (birdPhysics (bird s)))%Q
    /\ Bird.vy (bird (update s r)) = (Bird.vy (bird s) + GRAVITY)%Q
    /\ Bird.y (bird (update s r))
       = (if Qltb (inject_Z BASE_Y)
                  (Bird.y (birdPhysics (bird s)) + inject_Z (Bird.radius (bird s)))
          then inject_Z BASE_Y - inject_Z (Bird.radius (bird s))
          else Bird.y (birdPhysics (bird s)))%Q
    /\ (Bird.vy (bird (run s (map Tick (r :: rs))))
        == Bird.vy (bird s)
           + inject_Z (Z.of_nat (length (r :: rs))) * GRAVITY)%Q.
Proof.
  intros s r rs H.
  pose proof (vy_after_ticks (r :: rs) s H) as N.
  apply alwaysPlaying_head in H. destruct H as [G _].
  split; [ reflexivity | ].
  split; [ reflexivity | ].
  split; [ reflexivity | ].
  split; [ apply update_Game_vy; exact G | ].
  split; [ | exact N ].
  rewrite (update_Game_bird s r G). unfold groundCollision. simpl.
  case_ground; reflexivity.
Qed.

Lemma physics_gravity_then_position_witness :
  alwaysPlaying (flap start) (map Tick [1 # 2; 1 # 2; 1 # 2]%Q) = true
  /\ (Bird.vy (bird (run (flap start) (map Tick [1 # 2; 1 # 2; 1 # 2]%Q)))
      == JUMP + 3 * GRAVITY)%Q.
Proof.
  split; [ reflexivity | ].
  destruct (physics_gravity_then_position (flap start) (1 # 2) [1 # 2; 1 # 2]%Q
              eq_refl) as (_ & _ & _ & _ & _ & N).
  exact N.
Defined.

(** C2.  In a tick taken in state [Game], if after the physics step
    [bird.y + bird.radius] exceeds [BASE_Y] (400), the tick ends in
    state [Over] with [bird.y] equal to [BASE_Y - bird.radius]. *)
Theorem ground_collision_clamps_and_ends :
  forall (s : Session) (r : Q),
    gameState s = Game ->
    (inject_Z BASE_Y
     < Bird.y (birdPhysics (bird s)) + inject_Z (Bird.radius (bird s)))%Q ->
    BASE_Y = HEIGHT - GROUND_HEIGHT /\ BASE_Y = 400
    /\ gameState (update s r) = Over
    /\ Bird.y (bird (update s r))
       = (inject_Z BASE_Y - inject_Z (Bird.radius (bird s)))%Q
    /\ Bird.radius (bird (update s r)) = Bird.radius (bird s).
Proof.
  intros s r G L. apply Qltb_lt in L.
  split; [ reflexivity | ]. split; [ reflexivity | ].
  split.
  - rewrite (update_Game s r G). simpl. unfold playTick, groundCollision.
    rewrite collisions_bird, pipesLogic_bird. simpl.
    simpl in L. rewrite L. reflexivity.
  - rewrite (update_Game_bird s r G). unfold groundCollision. simpl.
    simpl in L. rewrite L. simpl. split; reflexivity.
Qed.

Lemma ground_collision_clamps_and_ends_witness :
  gameState (run start (Activate :: map Tick (repeat (1 # 2)%Q 54))) = Game
  /\ (Bird.y (bird (run start (Activate :: map Tick (repeat (1 # 2)%Q 55))))
      == 388)%Q.
Proof.
  split; [ vm_compute; reflexivity | ].
  assert (E : run start (Activate :: map Tick (repeat (1 # 2)%Q 55))
              = update (run start (Activate :: map Tick (repeat (1 # 2)%Q 54)))
                       (1 # 2)%Q) by (vm_compute; reflexivity).
  rewrite E.
  destruct (ground_collision_clamps_and_ends
              (run start (Activate :: map Tick (repeat (1 # 2)%Q 54))) (1 # 2)%Q)
    as (_ & _ & _ & Y & _).
  - vm_compute. reflexivity.
  - vm_compute. reflexivity.
  - rewrite Y. vm_compute. reflexivity.
Defined.

(** * The key press *)

(** C4.  A key press in state [Splash] or [Game] leaves the game in
    state [Game] with [bird.vy] equal to [JUMP], a negative constant,
    whatever the velocity was; of two presses in a row in state [Game]
    each sets [bird.vy] to [JUMP], and neither changes the score, the
    pipes, the spawn timer or the bird's position. *)
Theorem flap_sets_jump_velocity :
  forall (s p : Session),
    gameState s <> Over ->
    gameState p = Game ->
    (JUMP < 0)%Q
    /\ (Bird.vy (bird (flap s)) = JUMP /\ gameState (flap s) = Game)
    /\ (Bird.vy (bird (flap p)) = JUMP /\ gameState (flap p) = Game
        /\ score (flap p) = score p /\ pipes (flap p) = pipes p
        /\ pipeSpawnTimer (flap p) = pipeSpawnTimer p
        /\ Bird.y (bird (flap p)) = Bird.y (bird p))
    /\ (Bird.vy (bird (flap (flap p))) = JUMP /\ gameState (flap (flap p)) = Game
        /\ score (flap (flap p)) = score p /\ pipes (flap (flap p)) = pipes p
        /\ pipeSpawnTimer (flap (flap p)) = pipeSpawnTimer p
        /\ Bird.y (bird (flap (flap p))) = Bird.y (bird p)).
Proof.
  intros s p NS GP.
  split; [ reflexivity | ].
  split.
  - unfold flap. destruct (gameState s) eqn:E; simpl; try rewrite E;
      try (split; reflexivity). congruence.
  - assert (F : flap p = playAudio (setBird p (setVy (bird p) JUMP)) Wing)
      by (unfold flap; rewrite GP; reflexivity).
    assert (GF : gameState (flap p) = Game) by (rewrite F; exact GP).
    assert (FF : flap (flap p)
                 = playAudio (setBird (flap p) (setVy (bird (flap p)) JUMP)) Wing)
      by (unfold flap at 1; rewrite GF; reflexivity).
    split.
    + rewrite F. simpl. repeat split. exact GP.
    + rewrite FF. simpl. rewrite F. simpl. repeat split. exact GP.
Qed.

Lemma flap_sets_jump_velocity_witness :
  gameState start <> Over
  /\ gameState (update (flap start) (1 # 2)%Q) = Game
  /\ Bird.vy (bird (flap start)) = JUMP
  /\ Bird.vy (bird (flap (flap (update (flap start) (1 # 2)%Q)))) = JUMP.
Proof.
  assert (A : gameState start <> Over) by discriminate.
  assert (B : gameState (update (flap start) (1 # 2)%Q) = Game) by reflexivity.
  destruct (flap_sets_jump_velocity start (update (flap start) (1 # 2)%Q) A B)
    as (_ & (V1 & _) & _ & (V2 & _)).
  repeat split; assumption.
Defined.

(** * The animation frame *)

(** What lines 211-213 compute in a tick taken in state [Game].  The
    test [vy >= JUMP] comes first and, [JUMP] being negative, shadows
    the test [vy < 0]: the frame is [Downflap] whenever the new velocity
    is at least [JUMP], [Upflap] below that, and the last branch,
    [Midflap], cannot be reached.  This is the slip behind the animation
    frame never following the velocity. *)
Theorem frame_tests_jump_threshold_first :
  forall (s : Session) (r : Q),
    gameState s = Game ->
    Bird.vy (bird (update s r)) = (Bird.vy (bird s) + GRAVITY)%Q
    /\ ((JUMP <= Bird.vy (bird s) + GRAVITY)%Q ->
        Bird.frame (bird (update s r)) = Downflap)
    /\ (~ (JUMP <= Bird.vy (bird s) + GRAVITY)%Q ->
        (Bird.vy (bird s) + GRAVITY < 0)%Q
        /\ Bird.frame (bird (update s r)) = Upflap)
    /\ Bird.frame (bird (update s r)) <> Midflap.
Proof.
  intros s r G.
  assert (F : Bird.frame (bird (update s r))
              = Bird.frame (birdPhysics (bird s))).
  { rewrite (update_Game_bird s r G). unfold groundCollision.
    case_ground; reflexivity. }
  split; [ apply update_Game_vy; exact G | ].
  rewrite F. unfold birdPhysics. simpl.
  destruct (Qle_bool JUMP (Bird.vy (bird s) + GRAVITY)) eqn:E.
  - apply Qle_bool_iff in E.
    split; [ reflexivity | ]. split; [ tauto | discriminate ].
  - assert (NE : ~ (JUMP <= Bird.vy (bird s) + GRAVITY)%Q)
      by (intro L; apply Qle_bool_iff in L; congruence).
    assert (LT : (Bird.vy (bird s) + GRAVITY < 0)%Q).
    { apply Qnot_le_lt in NE. apply Qlt_trans with JUMP; [ exact NE | reflexivity ]. }
    apply Qltb_lt in LT. rewrite LT.
    split; [ tauto | ]. split; [ | discriminate ].
    intros _. split; [ apply Qltb_lt; exact LT | reflexivity ].
Qed.

Lemma frame_tests_jump_threshold_first_witness :
  gameState (flap start) = Game
  /\ Bird.frame (bird (update (flap start) (1 # 2)%Q)) = Downflap.
Proof.
  split; [ reflexivity | ].
  destruct (frame_tests_jump_threshold_first (flap start) (1 # 2)%Q eq_refl)
    as (_ & D & _).
  apply D. vm_compute. discriminate.
Defined.

(** C5, a defect of the code.  The frame should be the rising one,
    [Upflap], whenever the new velocity is negative, as the comments of
    lines 210-212 intend.  On the first tick after a key press the new
    velocity is -17/4, negative, yet the code sets [Downflap]: line 211
    tests [vy >= JUMP] first, which holds, so the test [vy < 0] is never
    reached.  [phaseRisingFirst] is the selection the claim describes. *)
Lemma frame_after_flap_is_not_rising :
  gameState (flap start) = Game
  /\ (Bird.vy (bird (update (flap start) (1 # 2)%Q)) == - (17 # 4))%Q
  /\ (Bird.vy (bird (update (flap start) (1 # 2)%Q)) < 0)%Q
  /\ phaseRisingFirst (Bird.vy (bird (update (flap start) (1 # 2)%Q))) = Upflap
  /\ Bird.frame (bird (update (flap start) (1 # 2)%Q)) = Downflap
  /\ Bird.frame (bird (update (flap start) (1 # 2)%Q))
     <> phaseRisingFirst (Bird.vy (bird (update (flap start) (1 # 2)%Q))).
Proof.
  repeat split; try (vm_compute; congruence).
Qed.

(** * The spawner *)

(** [roundDouble] on known doubles: 0.1, the product of the double 0.7
    with 220 (exactly just below 154), the product of the largest
    [Math.random()] with 220, a tie in the subnormal range. *)
Example roundDouble_checks :
  (roundDouble (1 # 10) == 3602879701896397 # 36028797018963968)%Q
  /\ (roundDouble ((3152519739159347 # 4503599627370496) * 220) == 154)%Q
  /\ (roundDouble (maxRandom * 220) == 220 - (1 # 35184372088832))%Q
  /\ (roundDouble (3 * pow2 (- 1075)) == 2 * pow2 (- 1074))%Q.
Proof.
  split; [ vm_compute; reflexivity | ].
  split; [ vm_compute; reflexivity | ].
  split; vm_compute; reflexivity.
Qed.

Lemma pow2_pos e : (0 < pow2 e)%Q.
Proof.
  unfold pow2. destruct (0 <=? e) eqn:E.
  - apply Z.leb_le in E. change 0%Q with (inject_Z 0). rewrite <- Zlt_Qlt.
    apply Z.pow_pos_nonneg; lia.
  - reflexivity.
Qed.

Lemma pow2_neg_le (e k : Z) :
  e <= - k -> 0 < k -> (pow2 e <= 1 # Z.to_pos (2 ^ k))%Q.
Proof.
  intros E K. unfold pow2.
  assert (N : (0 <=? e) = false) by (apply Z.leb_gt; lia).
  rewrite N. unfold Qle. cbn [Qnum Qden].
  assert (P1 : 0 < 2 ^ k) by (apply Z.pow_pos_nonneg; lia).
  assert (P2 : 0 < 2 ^ (- e)) by (apply Z.pow_pos_nonneg; lia).
  rewrite !Z2Pos.id by assumption.
  assert (M : 2 ^ k <= 2 ^ (- e)) by (apply Z.pow_le_mono_r; lia).
  lia.
Qed.

Lemma roundHalfEven_bounds (y : Q) :
  ((0 <= y)%Q -> 0 <= roundHalfEven y)
  /\ (inject_Z (roundHalfEven y) <= y + (1 # 2))%Q.
Proof.
  unfold roundHalfEven.
  pose proof (Qfloor_le y) as L. pose proof (Qlt_floor y) as U.
  rewrite inject_Z_plus in U. change (inject_Z 1) with 1%Q in U.
  assert (F0 : (0 <= y)%Q -> 0 <= Qfloor y).
  { intro Y. change 0 with (Qfloor 0). apply Qfloor_resp_le. exact Y. }
  destruct (y - inject_Z (Qfloor y) ?= 1 # 2)%Q eqn:C.
  - apply Qeq_alt in C.
    destruct (Z.even (Qfloor y)); split; try (intro Y; specialize (F0 Y); lia);
      rewrite ?inject_Z_plus; change (inject_Z 1) with 1%Q; lra.
  - apply Qlt_alt in C. split; [ exact F0 | lra ].
  - apply Qgt_alt in C. split; [ intro Y; specialize (F0 Y); lia | ].
    rewrite inject_Z_plus. change (inject_Z 1) with 1%Q. lra.
Qed.

Lemma binade_small (x : Q) : (x < 256)%Q -> binade x <= 7.
Proof.
  intro X. unfold binade. destruct (Qle_bool 1 x).
  - assert (F : Qfloor x <= 255).
    { assert (G : Qfloor x < 256).
      { rewrite Zlt_Qlt. apply Qle_lt_trans with x; [ apply Qfloor_le | exact X ]. }
      lia. }
    destruct (Z.le_gt_cases (Qfloor x) 0) as [ N | P ].
    + rewrite Z.log2_nonpos by exact N. lia.
    + pose proof (Z.log2_le_mono _ _ F) as M. change (Z.log2 255) with 7 in M. exact M.
  - pose proof (Z.log2_up_nonneg (Qceiling (/ x))). lia.
Qed.

(** The double nearest to a number in [0, 256) is not negative and
    exceeds it by at most half a unit in the last place, 2^-46. *)
Lemma roundDouble_near (x : Q) :
  (0 <= x)%Q -> (x < 256)%Q ->
  (0 <= roundDouble x <= x + (1 # 70368744177664))%Q.
Proof.
  intros X0 X1. unfold roundDouble.
  assert (P : Qle_bool 0 x = true) by (apply Qle_bool_iff; exact X0).
  rewrite P.
  pose proof (Qabs_pos x X0) as A.
  set (a := Qabs x) in *.
  set (u := Z.max (binade a - 52) (-1074)).
  assert (A1 : (a < 256)%Q) by (rewrite A; exact X1).
  assert (A0 : (0 <= a)%Q) by (rewrite A; exact X0).
  pose proof (binade_small a A1) as B.
  assert (U : u <= - 45) by (unfold u; lia).
  pose proof (pow2_pos u) as PP.
  pose proof (pow2_neg_le u 45 U eq_refl) as PL.
  change (1 # Z.to_pos (2 ^ 45))%Q with (1 # 35184372088832)%Q in PL.
  assert (Y0 : (0 <= a / pow2 u)%Q).
  { unfold Qdiv. apply Qmult_le_0_compat; [ exact A0 | ].
    apply Qlt_le_weak, Qinv_lt_0_compat, PP. }
  destruct (roundHalfEven_bounds (a / pow2 u)) as (M0 & M1).
  specialize (M0 Y0).
  assert (MQ : (0 <= inject_Z (roundHalfEven (a / pow2 u)))%Q).
  { change 0%Q with (inject_Z 0). rewrite <- Zle_Qle. exact M0. }
  split.
  - apply Qmult_le_0_compat; [ exact MQ | apply Qlt_le_weak, PP ].
  - apply Qle_trans with ((a / pow2 u + (1 # 2)) * pow2 u)%Q.
    + apply Qmult_le_compat_r; [ exact M1 | apply Qlt_le_weak, PP ].
    + assert (E : ((a / pow2 u + (1 # 2)) * pow2 u == a + (1 # 2) * pow2 u)%Q).
      { field. intro Z0. rewrite Z0 in PP. apply (Qlt_irrefl 0). exact PP. }
      rewrite E, A. lra.
Qed.

(** The floor of the rounded product of line 115 lies in [0, 220): the
    product is at most 220 - 220 * 2^-53, and rounding adds less than
    that margin. *)
Lemma randomTimes220 (r : Q) :
  (0 <= r)%Q -> (r <= maxRandom)%Q ->
  0 <= Qfloor (roundDouble (r * inject_Z 220)) < 220.
Proof.
  intros R0 R1. unfold maxRandom in R1.
  change (inject_Z 220) with 220%Q.
  assert (X0 : (0 <= r * 220)%Q) by lra.
  assert (X1 : (r * 220 < 256)%Q) by lra.
  destruct (roundDouble_near (r * 220) X0 X1) as (D0 & D1).
  split.
  - change 0 with (Qfloor 0). apply Qfloor_resp_le. exact D0.
  - rewrite Zlt_Qlt.
    apply Qle_lt_trans with (roundDouble (r * 220)); [ apply Qfloor_le | ].
    change (inject_Z 220) with 220%Q. lra.
Qed.

Lemma pow2_exp_add (e : Z) :
  - 53 <= e -> (pow2 e * inject_Z (2 ^ 53) == inject_Z (2 ^ (e + 53)))%Q.
Proof.
  intro E. unfold pow2. destruct (0 <=? e) eqn:C.
  - apply Z.leb_le in C. rewrite <- inject_Z_mult, <- Z.pow_add_r by lia.
    reflexivity.
  - apply Z.leb_gt in C. unfold Qeq, Qmult. cbn [Qnum Qden inject_Z].
    assert (P : 0 < 2 ^ (- e)) by (apply Z.pow_pos_nonneg; lia).
    rewrite Pos.mul_1_r, Z2Pos.id by exact P.
    replace 53 with (- e + (e + 53)) at 1 by lia.
    rewrite Z.pow_add_r by lia. lia.
Qed.

(** A double below 1 is at most [1 - 2^-53]. *)
Lemma double_below_one (r : Q) :
  isDouble r -> (r < 1)%Q -> (r <= maxRandom)%Q.
Proof.
  intros (m & e & M & E) R.
  destruct (Z.le_gt_cases (- 53) e) as [ C | C ].
  - assert (K : (r * inject_Z (2 ^ 53) == inject_Z (m * 2 ^ (e + 53)))%Q).
    { rewrite E, <- Qmult_assoc, (pow2_exp_add e C), <- inject_Z_mult.
      reflexivity. }
    assert (L : m * 2 ^ (e + 53) < 2 ^ 53).
    { rewrite Zlt_Qlt, <- K.
      change (inject_Z (2 ^ 53)) with 9007199254740992%Q in *. lra. }
    assert (L' : (inject_Z (m * 2 ^ (e + 53)) <= 9007199254740991)%Q).
    { change 9007199254740991%Q with (inject_Z 9007199254740991).
      rewrite <- Zle_Qle. change (2 ^ 53) with 9007199254740992 in L. lia. }
    rewrite <- K in L'. unfold maxRandom.
    change (inject_Z (2 ^ 53)) with 9007199254740992%Q in L'. lra.
  - assert (PL : (pow2 e <= 1 # Z.to_pos (2 ^ 54))%Q)
      by (apply pow2_neg_le; lia).
    change (1 # Z.to_pos (2 ^ 54))%Q with (1 # 18014398509481984)%Q in PL.
    pose proof (pow2_pos e) as PP.
    assert (MQ : (inject_Z m <= 9007199254740992)%Q).
    { change 9007199254740992%Q with (inject_Z 9007199254740992).
      rewrite <- Zle_Qle. change (2 ^ 53) with 9007199254740992 in M. lia. }
    rewrite E. unfold maxRandom.
    apply Qle_trans with (9007199254740992 * pow2 e)%Q.
    + apply Qmult_le_compat_r; [ exact MQ | apply Qlt_le_weak, PP ].
    + lra.
Qed.

(** C7.  For every double [r] that [Math.random()] can return, a number
    in [0, 1), [spawnPipe] appends one pipe whose [x] is [WIDTH] (288),
    whose [bottom] is [top + PIPE_GAP] (100 below the top), and whose
    [top] is an integer with
    [40 <= top < HEIGHT - GROUND_HEIGHT - PIPE_GAP - 80 + 40 = 260];
    nothing else of the session changes.  The upper bound holds for the
    rounded product: the largest [r] is [1 - 2^-53], and its product
    with 220 rounds to a double below 220. *)
Theorem spawnPipe_gap_in_bounds :
  forall (s : Session) (r : Q),
    isDouble r ->
    (0 <= r)%Q -> (r < 1)%Q ->
    exists p : Pipe.t,
      spawnPipe s r = setPipes s (pipes s ++ [p])
      /\ Pipe.x p = WIDTH /\ WIDTH = 288
      /\ Pipe.bottom p = Pipe.top p + PIPE_GAP /\ PIPE_GAP = 100
      /\ 40 <= Pipe.top p < HEIGHT - GROUND_HEIGHT - PIPE_GAP - 80 + 40
      /\ HEIGHT - GROUND_HEIGHT - PIPE_GAP - 80 + 40 = 260
      /\ Pipe.passed p = false.
Proof.
  intros s r D R0 R1. unfold spawnPipe.
  eexists. split; [ reflexivity | ].
  cbn [Pipe.x Pipe.top Pipe.bottom Pipe.passed].
  pose proof (randomTimes220 r R0 (double_below_one r D R1)) as B.
  change (HEIGHT - GROUND_HEIGHT - PIPE_GAP - 80) with 220.
  repeat split; try reflexivity; lia.
Qed.

(** The double 0.7: its exact product with 220 is just below 154 and
    rounds to 154, so the gap starts at 194. *)
Lemma spawnPipe_gap_in_bounds_witness :
  isDouble (3152519739159347 # 4503599627370496)
  /\ (0 <= 3152519739159347 # 4503599627370496)%Q
  /\ (3152519739159347 # 4503599627370496 < 1)%Q
  /\ (exists p : Pipe.t,
        spawnPipe start (3152519739159347 # 4503599627370496)%Q
        = setPipes start (pipes start ++ [p])
        /\ 40 <= Pipe.top p < 260)
  /\ map Pipe.top
         (pipes (spawnPipe start (3152519739159347 # 4503599627370496)%Q))
     = [194].
Proof.
  assert (D : isDouble (3152519739159347 # 4503599627370496)).
  { exists 3152519739159347, (- 52). split; [ reflexivity | ].
    vm_compute. reflexivity. }
  assert (A : (0 <= 3152519739159347 # 4503599627370496)%Q)
    by (vm_compute; discriminate).
  assert (B : (3152519739159347 # 4503599627370496 < 1)%Q) by reflexivity.
  destruct (spawnPipe_gap_in_bounds start
              (3152519739159347 # 4503599627370496)%Q D A B)
    as (p & E & _ & _ & _ & _ & T & _).
  split; [ exact D | ]. split; [ exact A | ]. split; [ exact B | ].
  split; [ exists p; split; [ exact E | exact T ] | ].
  vm_compute. reflexivity.
Defined.

(** * Ticks outside play *)

Lemma update_idle s r :
  gameState s <> Game ->
  update s r = setBaseX (setFrame s (frame s + 1)) (Z.rem (baseX s - 2) WIDTH).
Proof.
  intro N. unfold update. simpl.
  destruct (gameState s); [ reflexivity | congruence | reflexivity ].
Qed.

Lemma run_idle_ticks rs :
  forall s,
    gameState s <> Game ->
    gameState (run s (map Tick rs)) = gameState s
    /\ score (run s (map Tick rs)) = score s
    /\ pipes (run s (map Tick rs)) = pipes s
    /\ bird (run s (map Tick rs)) = bird s
    /\ pipeSpawnTimer (run s (map Tick rs)) = pipeSpawnTimer s
    /\ sounds (run s (map Tick rs)) = sounds s
    /\ frame (run s (map Tick rs)) = frame s + Z.of_nat (length rs).
Proof.
  induction rs as [ | r rest IH ]; intros s N.
  - simpl. repeat split. lia.
  - change (map Tick (r :: rest)) with (Tick r :: map Tick rest).
    rewrite run_cons. simpl step.
    assert (N' : gameState (update s r) <> Game)
      by (rewrite (update_idle s r N); exact N).
    destruct (IH (update s r) N') as (A & B & C & D & E & F & H).
    rewrite A, B, C, D, E, F, H, (update_idle s r N). simpl length.
    repeat split. simpl. lia.
Qed.

(** C9.  A tick received in state [Splash] or [Over] changes the frame
    counter, which grows by one, and the ground offset, which becomes
    [(baseX - 2) % WIDTH]; the bird, the pipes, the score, the spawn
    timer and the game state are as before.  So any number of ticks from
    such a state leaves all of these unchanged. *)
Theorem idle_tick_moves_only_ground :
  forall (s : Session) (r : Q) (rs : list Q),
    gameState s <> Game ->
    (bird (update s r) = bird s
     /\ pipes (update s r) = pipes s
     /\ score (update s r) = score s
     /\ pipeSpawnTimer (update s r) = pipeSpawnTimer s
     /\ gameState (update s r) = gameState s
     /\ sounds (update s r) = sounds s)
    /\ frame (update s r) = frame s + 1
    /\ (baseX (update s r) = Z.rem (baseX s - 2) WIDTH
        /\ - WIDTH < baseX (update s r) < WIDTH)
    /\ (bird (run s (map Tick rs)) = bird s
        /\ pipes (run s (map Tick rs)) = pipes s
        /\ score (run s (map Tick rs)) = score s
        /\ pipeSpawnTimer (run s (map Tick rs)) = pipeSpawnTimer s
        /\ gameState (run s (map Tick rs)) = gameState s).
Proof.
  intros s r rs N.
  rewrite (update_idle s r N). simpl.
  split; [ repeat split | ].
  split; [ reflexivity | ].
  split.
  - split; [ reflexivity | ].
    pose proof (Z.rem_bound_abs (baseX s - 2) WIDTH) as B.
    assert (W : WIDTH = 288) by reflexivity.
    rewrite W in *. lia.
  - destruct (run_idle_ticks rs s N) as (A & B & C & D & E & _).
    repeat split; assumption.
Qed.

Lemma idle_tick_moves_only_ground_witness :
  gameState start <> Game
  /\ gameState (run start (map Tick (repeat (1 # 2)%Q 400))) = Splash
  /\ score (run start (map Tick (repeat (1 # 2)%Q 400))) = 0
  /\ pipes (run start (map Tick (repeat (1 # 2)%Q 400))) = [].
Proof.
  assert (A : gameState start <> Game) by discriminate.
  destruct (idle_tick_moves_only_ground start (1 # 2)%Q (repeat (1 # 2)%Q 400) A)
    as (_ & _ & _ & (_ & P & S & _ & G)).
  repeat split; assumption.
Defined.

(** * The pipes *)

Lemma shiftOffscreen_xs ps :
  map Pipe.x (shiftOffscreen ps) = dropFront (map Pipe.x ps).
Proof.
  destruct ps as [ | p rest ]; [ reflexivity | ].
  unfold shiftOffscreen, dropFront. cbn [map].
  destruct (Pipe.x p <? - PIPE_WIDTH); reflexivity.
Qed.

Lemma movePipe_xs ps :
  map Pipe.x (map movePipe ps) = map (fun v => v - 2) (map Pipe.x ps).
Proof. rewrite !map_map. reflexivity. Qed.

Lemma pipesLogic_timer_xs s r : timerXs (pipesLogic s r) = xsTick (timerXs s).
Proof.
  unfold timerXs, pipesLogic, xsTick, spawnStep, spawnPipe. simpl.
  destruct (PIPE_DISTANCE <? pipeSpawnTimer s + 1); simpl;
    rewrite shiftOffscreen_xs, movePipe_xs; [ | reflexivity ].
  rewrite map_app. reflexivity.
Qed.

Lemma playTick_timer_xs s r : timerXs (playTick s r) = xsTick (timerXs s).
Proof.
  unfold playTick, timerXs. autorewrite with tick.
  exact (pipesLogic_timer_xs (setBird s (birdPhysics (bird s))) r).
Qed.

(** A tick in state [Game] acts on the timer and on the pipes'
    coordinates as [xsTick] says. *)
Lemma update_timer_xs s r :
  gameState s = Game -> timerXs (update s r) = xsTick (timerXs s).
Proof.
  intro G. rewrite (update_Game s r G).
  exact (playTick_timer_xs (setFrame s (frame s + 1)) r).
Qed.

Lemma flap_Game s :
  gameState s = Game ->
  flap s = playAudio (setBird s (setVy (bird s) JUMP)) Wing.
Proof. intro G. unfold flap. rewrite G. reflexivity. Qed.

Lemma step_Game_timer_xs s e :
  gameState s = Game ->
  timerXs (step s e)
  = match e with Tick _ => xsTick (timerXs s) | Activate => timerXs s end.
Proof.
  intro G. destruct e as [ r | ]; simpl.
  - apply update_timer_xs; exact G.
  - rewrite (flap_Game s G). reflexivity.
Qed.

(** While every event finds the game in state [Game], the timer and the
    coordinates after the events are [xsTick] iterated once per tick. *)
Lemma run_playing_timer_xs evs :
  forall s,
    alwaysPlaying s evs = true ->
    timerXs (run s evs) = Nat.iter (ticks evs) xsTick (timerXs s).
Proof.
  induction evs as [ | e rest IH ]; intros s H.
  - reflexivity.
  - apply alwaysPlaying_head in H. destruct H as [G H].
    rewrite run_cons, (IH _ H), (step_Game_timer_xs s e G).
    destruct e as [ r | ]; simpl ticks; [ | reflexivity ].
    rewrite Nat.iter_succ_r. reflexivity.
Qed.

(** ** Evenly spaced coordinates *)

Lemma xsFrom_snoc n : forall a,
  xsFrom a n ++ [a + SPACING * Z.of_nat n] = xsFrom a (S n).
Proof.
  induction n as [ | k IH ]; intro a.
  - simpl. f_equal. lia.
  - change (xsFrom a (S (S k))) with (a :: xsFrom (a + SPACING) (S k)).
    rewrite <- (IH (a + SPACING)).
    change (xsFrom a (S k)) with (a :: xsFrom (a + SPACING) k).
    rewrite <- app_comm_cons. do 3 f_equal. lia.
Qed.

Lemma xsFrom_moved n : forall a,
  map (fun v => v - 2) (xsFrom a n) = xsFrom (a - 2) n.
Proof.
  induction n as [ | k IH ]; intro a; simpl; [ reflexivity | ].
  rewrite IH. do 2 f_equal. lia.
Qed.

Lemma xsFrom_In n : forall a v,
  In v (xsFrom a n) ->
  exists i, 0 <= i < Z.of_nat n /\ v = a + SPACING * i.
Proof.
  induction n as [ | k IH ]; intros a v H; simpl in H; [ contradiction | ].
  destruct H as [ H | H ].
  - exists 0. split; lia.
  - destruct (IH _ _ H) as (i & B & E). exists (i + 1). split; lia.
Qed.

Lemma xsFrom_sorted n : forall a, StronglySorted Z.lt (xsFrom a n).
Proof.
  induction n as [ | k IH ]; intro a; simpl; constructor.
  - apply IH.
  - apply Forall_forall. intros v H.
    destruct (xsFrom_In _ _ _ H) as (i & B & E).
    unfold SPACING, PIPE_DISTANCE in *. lia.
Qed.

(** ** The scoring pass *)

Lemma justPassed_ext b b' p :
  Bird.x b = Bird.x b' -> justPassed b p = justPassed b' p.
Proof. intro E. unfold justPassed. rewrite E. reflexivity. Qed.

Lemma markPassed_ext b b' p :
  Bird.x b = Bird.x b' -> markPassed b p = markPassed b' p.
Proof. intro E. unfold markPassed. rewrite (justPassed_ext b b' p E). reflexivity. Qed.

Lemma checkPipe_snd s p : snd (checkPipe s p) = markPassed (bird s) p.
Proof.
  unfold checkPipe, markPassed.
  destruct (inPipeXRange (bird s) p && outsideGap (bird s) p); simpl;
    destruct (justPassed (bird s) p); reflexivity.
Qed.

Lemma checkPipe_score s p :
  score (fst (checkPipe s p))
  = score s + (if justPassed (bird s) p then 1 else 0).
Proof.
  unfold checkPipe.
  destruct (inPipeXRange (bird s) p && outsideGap (bird s) p); simpl;
    destruct (justPassed (bird s) p); simpl; lia.
Qed.

Lemma checkPipes_snd ps :
  forall s, snd (checkPipes s ps) = map (markPassed (bird s)) ps.
Proof.
  induction ps as [ | p rest IH ]; intro s; simpl; [ reflexivity | ].
  pose proof (checkPipe_snd s p) as M.
  pose proof (checkPipe_frame s p) as F.
  destruct (checkPipe s p) as [s1 p']. simpl in M, F.
  specialize (IH s1).
  destruct (checkPipes s1 rest) as [s2 rest']. simpl in *.
  destruct F as (B & _). rewrite M, IH, B. reflexivity.
Qed.

Lemma checkPipes_score ps :
  forall s,
    score (fst (checkPipes s ps))
    = score s + Z.of_nat (length (filter (justPassed (bird s)) ps)).
Proof.
  induction ps as [ | p rest IH ]; intro s; simpl; [ lia | ].
  pose proof (checkPipe_score s p) as M.
  pose proof (checkPipe_frame s p) as F.
  destruct (checkPipe s p) as [s1 p']. simpl in M, F.
  specialize (IH s1).
  destruct (checkPipes s1 rest) as [s2 rest']. simpl in *.
  destruct F as (B & _). rewrite IH, M, B.
  destruct (justPassed (bird s) p); simpl length; lia.
Qed.

Lemma collisions_pipes s :
  pipes (collisions s) = map (markPassed (bird s)) (pipes s).
Proof.
  unfold collisions. pose proof (checkPipes_snd (pipes s) s) as M.
  destruct (checkPipes s (pipes s)) as [s1 ps]. exact M.
Qed.

Lemma collisions_score s :
  score (collisions s)
  = score s + Z.of_nat (length (filter (justPassed (bird s)) (pipes s))).
Proof.
  unfold collisions. pose proof (checkPipes_score (pipes s) s) as M.
  destruct (checkPipes s (pipes s)) as [s1 ps]. exact M.
Qed.

Lemma groundCollision_score s : score (groundCollision s) = score s.
Proof.
  unfold groundCollision.
  case_ground; reflexivity.
Qed.

Lemma pipesLogic_score s r : score (pipesLogic s r) = score s.
Proof.
  unfold pipesLogic, spawnStep. simpl.
  destruct (PIPE_DISTANCE <? pipeSpawnTimer s + 1); reflexivity.
Qed.

Lemma pipesLogic_pipes_ext s s' r :
  pipes s = pipes s' -> pipeSpawnTimer s = pipeSpawnTimer s' ->
  pipes (pipesLogic s r) = pipes (pipesLogic s' r).
Proof.
  intros P T. unfold pipesLogic, spawnStep, spawnPipe. simpl. rewrite T.
  destruct (PIPE_DISTANCE <? pipeSpawnTimer s' + 1); simpl; rewrite P; reflexivity.
Qed.

Lemma birdPhysics_x b : Bird.x (birdPhysics b) = Bird.x b.
Proof. reflexivity. Qed.

Lemma playTick_pipes s r :
  pipes (playTick s r) = map (markPassed (bird s)) (pipes (pipesLogic s r)).
Proof.
  unfold playTick.
  rewrite groundCollision_pipes, collisions_pipes, pipesLogic_bird.
  rewrite (pipesLogic_pipes_ext (setBird s (birdPhysics (bird s))) s r
             eq_refl eq_refl).
  apply map_ext. intro p. apply markPassed_ext. reflexivity.
Qed.

Lemma playTick_score s r :
  score (playTick s r)
  = score s
    + Z.of_nat (length (filter (justPassed (bird s)) (pipes (pipesLogic s r)))).
Proof.
  unfold playTick.
  rewrite groundCollision_score, collisions_score, pipesLogic_score, pipesLogic_bird.
  rewrite (pipesLogic_pipes_ext (setBird s (birdPhysics (bird s))) s r
             eq_refl eq_refl).
  change (score (setBird s (birdPhysics (bird s)))) with (score s).
  rewrite (filter_ext (justPassed (bird (setBird s (birdPhysics (bird s)))))
             (justPassed (bird s))); [ reflexivity | ].
  intro p. apply justPassed_ext. reflexivity.
Qed.

(** The pipes and the score at the end of a tick in state [Game]: the
    pipes of lines 218-225, each marked by the scoring test, and one
    point per pipe the test marks. *)
Lemma update_Game_pipes s r :
  gameState s = Game ->
  pipes (update s r) = map (markPassed (bird s)) (pipes (pipesLogic s r)).
Proof.
  intro G. rewrite (update_Game s r G).
  change (pipes (setBaseX ?a ?b)) with (pipes a).
  rewrite playTick_pipes.
  rewrite (pipesLogic_pipes_ext (setFrame s (frame s + 1)) s r eq_refl eq_refl).
  reflexivity.
Qed.

Lemma update_Game_score s r :
  gameState s = Game ->
  score (update s r)
  = score s
    + Z.of_nat (length (filter (justPassed (bird s)) (pipes (pipesLogic s r)))).
Proof.
  intro G. rewrite (update_Game s r G).
  change (score (setBaseX ?a ?b)) with (score a).
  rewrite playTick_score.
  rewrite (pipesLogic_pipes_ext (setFrame s (frame s + 1)) s r eq_refl eq_refl).
  reflexivity.
Qed.

(** ** The invariant *)

Lemma xsTick_shape (t : Z) (n : nat) :
  0 <= t <= PIPE_DISTANCE ->
  - PIPE_WIDTH <= firstX t n ->
  0 <= fst (xsTick (t, xsFrom (firstX t n) n)) <= PIPE_DISTANCE
  /\ exists n' : nat,
       - PIPE_WIDTH <= firstX (fst (xsTick (t, xsFrom (firstX t n) n))) n'
       /\ snd (xsTick (t, xsFrom (firstX t n) n))
          = xsFrom (firstX (fst (xsTick (t, xsFrom (firstX t n) n))) n') n'.
Proof.
  intros T A. unfold xsTick.
  destruct (PIPE_DISTANCE <? t + 1) eqn:E; cbn [fst snd].
  - apply Z.ltb_lt in E.
    assert (T140 : t = PIPE_DISTANCE) by lia. subst t.
    assert (W : xsFrom (firstX PIPE_DISTANCE n) n ++ [WIDTH]
                = xsFrom (firstX PIPE_DISTANCE n) (S n)).
    { rewrite <- xsFrom_snoc. do 2 f_equal. unfold firstX, SPACING. lia. }
    rewrite W, xsFrom_moved.
    split; [ unfold PIPE_DISTANCE; lia | ].
    cbn [xsFrom dropFront].
    destruct (firstX PIPE_DISTANCE n - 2 <? - PIPE_WIDTH) eqn:D.
    + exists n. split.
      * unfold firstX, SPACING, PIPE_DISTANCE, PIPE_WIDTH, WIDTH in *. lia.
      * f_equal. unfold firstX, SPACING. lia.
    + apply Z.ltb_ge in D. exists (S n).
      assert (F : firstX 0 (S n) = firstX PIPE_DISTANCE n - 2)
        by (unfold firstX, SPACING; lia).
      rewrite F. split; [ exact D | reflexivity ].
  - apply Z.ltb_ge in E. rewrite xsFrom_moved.
    split; [ lia | ].
    destruct n as [ | k ].
    + exists 0%nat. split; [ | reflexivity ].
      unfold firstX, SPACING, PIPE_DISTANCE, PIPE_WIDTH, WIDTH in *. lia.
    + cbn [xsFrom dropFront].
      destruct (firstX t (S k) - 2 <? - PIPE_WIDTH) eqn:D.
      * exists k. split.
        -- unfold firstX, SPACING, PIPE_DISTANCE, PIPE_WIDTH, WIDTH in *. lia.
        -- f_equal. unfold firstX, SPACING. lia.
      * apply Z.ltb_ge in D. exists (S k).
        assert (F : firstX (t + 1) (S k) = firstX t (S k) - 2)
          by (unfold firstX, SPACING; lia).
        rewrite F. split; [ exact D | reflexivity ].
Qed.

(** Before the scoring pass of a tick, a pipe's mark tells whether the
    bird was beyond it where the pipe stood one tick earlier. *)
Lemma pipesLogic_marks s r :
  pipeInv s ->
  Forall (fun p => Pipe.passed p
                   = (Pipe.x p + 2 + PIPE_WIDTH <? Bird.x (bird s)))
         (pipes (pipesLogic s r)).
Proof.
  intros (BX & _ & _ & M).
  assert (K : forall ps,
             Forall (fun p => Pipe.passed p
                              = (Pipe.x p + PIPE_WIDTH <? Bird.x (bird s))) ps ->
             Forall (fun p => Pipe.passed p
                              = (Pipe.x p + 2 + PIPE_WIDTH <? Bird.x (bird s)))
                    (shiftOffscreen (map movePipe ps))).
  { intros ps H.
    assert (H' : Forall (fun p => Pipe.passed p
                                  = (Pipe.x p + 2 + PIPE_WIDTH <? Bird.x (bird s)))
                        (map movePipe ps)).
    { apply Forall_map. eapply Forall_impl; [ | exact H ].
      intros p E. cbn [movePipe Pipe.x Pipe.passed]. rewrite E. f_equal. lia. }
    destruct (map movePipe ps) as [ | q rest ]; [ exact H' | ].
    unfold shiftOffscreen. destruct (Pipe.x q <? - PIPE_WIDTH); [ | exact H' ].
    inversion H'; assumption. }
  unfold pipesLogic, spawnStep, spawnPipe.
  cbn [pipes setPipes setTimer pipeSpawnTimer].
  destruct (PIPE_DISTANCE <? pipeSpawnTimer s + 1); cbn [pipes setPipes setTimer].
  - apply K. apply Forall_app. split; [ exact M | ].
    constructor; [ | constructor ].
    cbn [Pipe.x Pipe.passed]. rewrite BX. reflexivity.
  - apply K. exact M.
Qed.

Lemma markPassed_x b p : Pipe.x (markPassed b p) = Pipe.x p.
Proof. unfold markPassed. destruct (justPassed b p); reflexivity. Qed.

Lemma markPassed_passed b p :
  Pipe.passed (markPassed b p)
  = Pipe.passed p || (Pipe.x p + PIPE_WIDTH <? Bird.x b).
Proof.
  unfold markPassed, justPassed.
  destruct (Pipe.passed p) eqn:P, (Pipe.x p + PIPE_WIDTH <? Bird.x b);
    simpl; try reflexivity; exact P.
Qed.

Lemma update_pipeInv s r : pipeInv s -> pipeInv (update s r).
Proof.
  intro I. destruct (STATE_eqb (gameState s) Game) eqn:E.
  - apply STATE_eqb_eq in E.
    pose proof (pipesLogic_marks s r I) as M.
    destruct I as (BX & T & (n & A & X) & _).
    pose proof (update_timer_xs s r E) as U. unfold timerXs in U.
    rewrite X in U.
    destruct (xsTick_shape (pipeSpawnTimer s) n T A) as (T' & n' & A' & X').
    rewrite <- U in T', A', X'. cbn [fst snd] in T', A', X'.
    unfold pipeInv. rewrite (update_Game_bird_x s r E).
    split; [ exact BX | ]. split; [ exact T' | ].
    split; [ exists n'; split; assumption | ].
    rewrite (update_Game_pipes s r E). apply Forall_map.
    eapply Forall_impl; [ | exact M ].
    intros p P. cbn beta in *. rewrite markPassed_passed, markPassed_x, P.
    destruct (Pipe.x p + 2 + PIPE_WIDTH <? Bird.x (bird s)) eqn:C1;
      destruct (Pipe.x p + PIPE_WIDTH <? Bird.x (bird s)) eqn:C2;
      try reflexivity.
    apply Z.ltb_lt in C1. apply Z.ltb_ge in C2. lia.
  - assert (N : gameState s <> Game)
      by (intro G; apply STATE_eqb_eq in G; congruence).
    rewrite (update_idle s r N). exact I.
Qed.

Lemma resetGame_pipeInv s : pipeInv (resetGame s).
Proof.
  unfold pipeInv. cbn [resetGame bird pipes pipeSpawnTimer Bird.x map].
  split; [ reflexivity | ]. split; [ unfold PIPE_DISTANCE; lia | ].
  split; [ | constructor ].
  exists 0%nat. split; [ vm_compute; discriminate | reflexivity ].
Qed.

Lemma flap_pipeInv s : pipeInv s -> pipeInv (flap s).
Proof.
  intro I. unfold flap. destruct (gameState s).
  - exact (resetGame_pipeInv s).
  - exact I.
  - exact (resetGame_pipeInv s).
Qed.

Lemma run_pipeInv evs : forall s, pipeInv s -> pipeInv (run s evs).
Proof.
  induction evs as [ | e rest IH ]; intros s I; [ exact I | ].
  rewrite run_cons. apply IH. destruct e as [ r | ]; simpl.
  - apply update_pipeInv; exact I.
  - apply flap_pipeInv; exact I.
Qed.

Lemma reachable_pipeInv s : reachable s -> pipeInv s.
Proof.
  intros (g & l & evs & _ & _ & E). subst s.
  apply run_pipeInv. unfold fresh. apply resetGame_pipeInv.
Qed.

Lemma spawnStep_xs s r :
  map Pipe.x (pipes (spawnStep s r))
  = if PIPE_DISTANCE <? pipeSpawnTimer s + 1
    then map Pipe.x (pipes s) ++ [WIDTH]
    else map Pipe.x (pipes s).
Proof.
  unfold spawnStep, spawnPipe. cbn [pipeSpawnTimer setTimer].
  destruct (PIPE_DISTANCE <? pipeSpawnTimer s + 1); cbn [pipes setTimer setPipes];
    [ | reflexivity ].
  rewrite map_app. reflexivity.
Qed.

Lemma update_Game_xs s r :
  gameState s = Game ->
  map Pipe.x (pipes (update s r))
  = dropFront (map (fun v => v - 2) (map Pipe.x (pipes (spawnStep s r)))).
Proof.
  intro G. pose proof (update_timer_xs s r G) as U.
  unfold timerXs, xsTick in U. rewrite spawnStep_xs.
  destruct (PIPE_DISTANCE <? pipeSpawnTimer s + 1); cbn [fst snd] in U; congruence.
Qed.

(** C8.  In every reachable session the pipes are in strictly ascending
    order of [x].  A tick in state [Game] moves every pipe (the one just
    spawned included) two pixels to the left and then removes at most
    one pipe, the first of the array, exactly when its right edge
    [x + PIPE_WIDTH] has gone below 0, the left boundary. *)
Theorem pipes_sorted_front_retired :
  forall (s : Session) (r : Q),
    reachable s ->
    StronglySorted Z.lt (map Pipe.x (pipes s))
    /\ (gameState s = Game ->
        match map Pipe.x (pipes (spawnStep s r)) with
        | [] => pipes (update s r) = []
        | a :: rest =>
            (a - 2 + PIPE_WIDTH < 0 ->
             map Pipe.x (pipes (update s r)) = map (fun v => v - 2) rest)
            /\ (0 <= a - 2 + PIPE_WIDTH ->
                map Pipe.x (pipes (update s r))
                = map (fun v => v - 2) (a :: rest))
        end).
Proof.
  intros s r R. split.
  - destruct (reachable_pipeInv s R) as (_ & _ & (n & _ & X) & _).
    rewrite X. apply xsFrom_sorted.
  - intro G. pose proof (update_Game_xs s r G) as U.
    destruct (map Pipe.x (pipes (spawnStep s r))) as [ | a rest ].
    + apply map_eq_nil in U. exact U.
    + cbn [map dropFront] in U. split; intro C.
      * assert (L : (a - 2 <? - PIPE_WIDTH) = true) by (apply Z.ltb_lt; lia).
        rewrite L in U. exact U.
      * assert (L : (a - 2 <? - PIPE_WIDTH) = false) by (apply Z.ltb_ge; lia).
        rewrite L in U. exact U.
Qed.

Lemma pipes_sorted_front_retired_witness :
  reachable (run start (firstn 319 (steadyPlay 9)))
  /\ gameState (run start (firstn 319 (steadyPlay 9))) = Game
  /\ map Pipe.x (pipes (run start (firstn 319 (steadyPlay 9)))) = [-52; 230]
  /\ map Pipe.x (pipes (update (run start (firstn 319 (steadyPlay 9))) (13 # 20)%Q))
     = [228].
Proof.
  assert (R : reachable (run start (firstn 319 (steadyPlay 9)))).
  { exists Splash, [], (firstn 319 (steadyPlay 9)).
    split; [ discriminate | ]. split; [ vm_compute; reflexivity | reflexivity ]. }
  assert (G : gameState (run start (firstn 319 (steadyPlay 9))) = Game)
    by (vm_compute; reflexivity).
  assert (X : map Pipe.x (pipes (spawnStep (run start (firstn 319 (steadyPlay 9)))
                                           (13 # 20)%Q))
              = [-52; 230]) by (vm_compute; reflexivity).
  destruct (pipes_sorted_front_retired _ (13 # 20)%Q R) as (_ & T).
  specialize (T G). rewrite X in T. destruct T as (T & _).
  split; [ exact R | ]. split; [ exact G | ].
  split; [ vm_compute; reflexivity | ].
  apply T. vm_compute. reflexivity.
Defined.

Lemma dropFront_keeps_last (l : list Z) (v : Z) :
  - PIPE_WIDTH <= v -> exists front, dropFront (l ++ [v]) = front ++ [v].
Proof.
  intro V. destruct l as [ | a rest ]; cbn [app dropFront].
  - assert (L : (v <? - PIPE_WIDTH) = false) by (apply Z.ltb_ge; exact V).
    rewrite L. exists []. reflexivity.
  - destruct (a <? - PIPE_WIDTH).
    + exists rest. reflexivity.
    + exists (a :: rest). reflexivity.
Qed.

(** C10.  In every reachable session, so after every completed tick, no
    pipe stands at the spawn position [WIDTH]: each pipe's [x] is
    [WIDTH - 2 * k] for an integer [k >= 1].  The tick that spawns a
    pipe (the timer passing [PIPE_DISTANCE]) already moves it, so that
    tick ends with the new pipe last in the array at [WIDTH - 2]. *)
Theorem no_pipe_rests_at_spawn_position :
  forall (s : Session) (r : Q),
    reachable s ->
    Forall (fun p => Pipe.x p <> WIDTH
                     /\ exists k : Z, 1 <= k /\ Pipe.x p = WIDTH - 2 * k)
           (pipes s)
    /\ (gameState s = Game ->
        PIPE_DISTANCE < pipeSpawnTimer s + 1 ->
        exists front,
          map Pipe.x (pipes (update s r)) = front ++ [WIDTH - 2]).
Proof.
  intros s r R. split.
  - destruct (reachable_pipeInv s R) as (_ & T & (n & _ & X) & _).
    apply Forall_forall. intros p P.
    assert (I : In (Pipe.x p) (xsFrom (firstX (pipeSpawnTimer s) n) n))
      by (rewrite <- X; apply in_map; exact P).
    destruct (xsFrom_In _ _ _ I) as (i & B & E).
    assert (K : Pipe.x p
                = WIDTH - 2 * (pipeSpawnTimer s + 1
                               + (PIPE_DISTANCE + 1) * (Z.of_nat n - 1 - i)))
      by (rewrite E; unfold firstX, SPACING; lia).
    assert (K1 : 1 <= pipeSpawnTimer s + 1
                      + (PIPE_DISTANCE + 1) * (Z.of_nat n - 1 - i))
      by (unfold PIPE_DISTANCE in *; nia).
    split; [ lia | ].
    eexists. split; [ exact K1 | exact K ].
  - intros G S. rewrite (update_Game_xs s r G), spawnStep_xs.
    apply Z.ltb_lt in S. rewrite S.
    rewrite map_app. cbn [map].
    apply dropFront_keeps_last. vm_compute. discriminate.
Qed.

Lemma no_pipe_rests_at_spawn_position_witness :
  reachable (run start (firstn 290 (steadyPlay 9)))
  /\ gameState (run start (firstn 290 (steadyPlay 9))) = Game
  /\ PIPE_DISTANCE < pipeSpawnTimer (run start (firstn 290 (steadyPlay 9))) + 1
  /\ exists front,
       map Pipe.x (pipes (update (run start (firstn 290 (steadyPlay 9)))
                                 (13 # 20)%Q))
       = front ++ [WIDTH - 2].
Proof.
  assert (R : reachable (run start (firstn 290 (steadyPlay 9)))).
  { exists Splash, [], (firstn 290 (steadyPlay 9)).
    split; [ discriminate | ]. split; [ vm_compute; reflexivity | reflexivity ]. }
  assert (G : gameState (run start (firstn 290 (steadyPlay 9))) = Game)
    by (vm_compute; reflexivity).
  assert (T : PIPE_DISTANCE < pipeSpawnTimer (run start (firstn 290 (steadyPlay 9))) + 1)
    by (vm_compute; reflexivity).
  destruct (no_pipe_rests_at_spawn_position _ (13 # 20)%Q R) as (_ & N).
  split; [ exact R | ]. split; [ exact G | ]. split; [ exact T | ].
  exact (N G T).
Defined.

(** * The score *)

(** C3, as the code has it.  Take a tick in state [Game] of a reachable
    session, and the pipes as lines 218-225 leave them.  The scoring
    pass keeps their positions and gaps.  A pipe is marked at the end of
    the tick exactly when the bird's centre [bird.x] is beyond the
    pipe's right edge [x + PIPE_WIDTH]; it was marked before the pass
    exactly when that held where the pipe stood one tick earlier.  So
    the mark goes from false to true in the first tick in which the
    centre is beyond the right edge, a mark once set stays, and the
    score grows by one for each pipe marked in the tick. *)
Theorem score_once_when_centre_passes :
  forall (s : Session) (r : Q),
    reachable s ->
    gameState s = Game ->
    Forall2
      (fun p p' =>
         Pipe.x p' = Pipe.x p /\ Pipe.top p' = Pipe.top p
         /\ Pipe.bottom p' = Pipe.bottom p
         /\ (Pipe.passed p' = true
             <-> Pipe.x p + PIPE_WIDTH < Bird.x (bird s))
         /\ (Pipe.passed p = true
             <-> Pipe.x p + 2 + PIPE_WIDTH < Bird.x (bird s))
         /\ (Pipe.passed p = true -> Pipe.passed p' = true)
         /\ (justPassed (bird s) p = true
             <-> Pipe.passed p = false /\ Pipe.passed p' = true))
      (pipes (pipesLogic s r)) (pipes (update s r))
    /\ score (update s r)
       = score s
         + Z.of_nat (length (filter (justPassed (bird s))
                                    (pipes (pipesLogic s r)))).
Proof.
  intros s r R G. split; [ | apply update_Game_score; exact G ].
  rewrite (update_Game_pipes s r G).
  pose proof (pipesLogic_marks s r (reachable_pipeInv s R)) as M.
  induction M as [ | p rest P _ IH ]; cbn [map]; constructor; [ | exact IH ].
  rewrite markPassed_passed, markPassed_x.
  assert (T : Pipe.top (markPassed (bird s) p) = Pipe.top p
              /\ Pipe.bottom (markPassed (bird s) p) = Pipe.bottom p)
    by (unfold markPassed; destruct (justPassed (bird s) p); split; reflexivity).
  destruct T as (T1 & T2).
  unfold justPassed. rewrite P.
  destruct (Pipe.x p + 2 + PIPE_WIDTH <? Bird.x (bird s)) eqn:C1;
    destruct (Pipe.x p + PIPE_WIDTH <? Bird.x (bird s)) eqn:C2;
    try apply Z.ltb_lt in C1; try apply Z.ltb_ge in C1;
    try apply Z.ltb_lt in C2; try apply Z.ltb_ge in C2;
    cbn [negb andb orb];
    repeat split; try assumption; try reflexivity; try lia;
    try discriminate; try (intro; lia); try (intro; discriminate);
    try (intros (? & ?); discriminate).
Qed.

Lemma score_once_when_centre_passes_witness :
  reachable (run start (firstn 288 (steadyPlay 9)))
  /\ gameState (run start (firstn 288 (steadyPlay 9))) = Game
  /\ score (run start (firstn 288 (steadyPlay 9))) = 0
  /\ score (update (run start (firstn 288 (steadyPlay 9))) (13 # 20)%Q) = 1.
Proof.
  assert (R : reachable (run start (firstn 288 (steadyPlay 9)))).
  { exists Splash, [], (firstn 288 (steadyPlay 9)).
    split; [ discriminate | ]. split; [ vm_compute; reflexivity | reflexivity ]. }
  assert (G : gameState (run start (firstn 288 (steadyPlay 9))) = Game)
    by (vm_compute; reflexivity).
  destruct (score_once_when_centre_passes _ (13 # 20)%Q R G) as (_ & S).
  split; [ exact R | ]. split; [ exact G | ].
  split; [ vm_compute; reflexivity | ].
  etransitivity; [ exact S | vm_compute; reflexivity ].
Defined.

(** C3 as worded names the bird's leading edge, [bird.x + bird.radius].
    When the pipe comes to [x = 18] that edge (72) is for the first time
    beyond the pipe's right edge (70), yet the pipe stays unmarked and
    the score unchanged: the code waits for the centre. *)
Lemma score_leading_edge_counterexample :
  gameState (run start (firstn 282 (steadyPlay 9))) = Game
  /\ map Pipe.x (pipes (run start (firstn 282 (steadyPlay 9)))) = [20]
  /\ Bird.x (bird (run start (firstn 282 (steadyPlay 9)))) = 60
  /\ Bird.radius (bird (run start (firstn 282 (steadyPlay 9)))) = 12
  /\ ~ (20 + PIPE_WIDTH < 60 + 12)
  /\ map Pipe.x (pipes (update (run start (firstn 282 (steadyPlay 9)))
                               (13 # 20)%Q)) = [18]
  /\ 18 + PIPE_WIDTH < 60 + 12
  /\ map Pipe.passed (pipes (update (run start (firstn 282 (steadyPlay 9)))
                                    (13 # 20)%Q)) = [false]
  /\ score (update (run start (firstn 282 (steadyPlay 9))) (13 # 20)%Q)
     = score (run start (firstn 282 (steadyPlay 9))).
Proof.
  split; [ vm_compute; reflexivity | ].
  split; [ vm_compute; reflexivity | ].
  split; [ vm_compute; reflexivity | ].
  split; [ vm_compute; reflexivity | ].
  split; [ vm_compute; discriminate | ].
  split; [ vm_compute; reflexivity | ].
  split; [ vm_compute; reflexivity | ].
  split; vm_compute; reflexivity.
Qed.

(** * The spawn cadence *)

(** C6, as the code has it.  After a key press in the opening state and
    further play in which every event finds the game in state [Game]:
    once [PIPE_DISTANCE] (140) ticks have passed there is still no pipe,
    the timer standing at [PIPE_DISTANCE] without exceeding it; tick
    [PIPE_DISTANCE + 1] spawns the first pipe and leaves it at
    [WIDTH - 2]; and tick [2 * (PIPE_DISTANCE + 1)] spawns the second,
    leaving exactly two pipes, the first at
    [WIDTH - 2 * (PIPE_DISTANCE + 2)] and the new one at [WIDTH - 2]. *)
Theorem first_pipe_after_timer_exceeds_distance :
  forall evs : list Event,
    alwaysPlaying (flap start) evs = true ->
    (ticks evs = Z.to_nat PIPE_DISTANCE ->
     pipes (run start (Activate :: evs)) = []
     /\ pipeSpawnTimer (run start (Activate :: evs)) = PIPE_DISTANCE)
    /\ (ticks evs = Z.to_nat (PIPE_DISTANCE + 1) ->
        map Pipe.x (pipes (run start (Activate :: evs))) = [WIDTH - 2]
        /\ pipeSpawnTimer (run start (Activate :: evs)) = 0)
    /\ (ticks evs = Z.to_nat (2 * (PIPE_DISTANCE + 1)) ->
        map Pipe.x (pipes (run start (Activate :: evs)))
        = [WIDTH - 2 * (PIPE_DISTANCE + 2); WIDTH - 2]
        /\ pipeSpawnTimer (run start (Activate :: evs)) = 0).
Proof.
  intros evs H. rewrite run_cons. change (step start Activate) with (flap start).
  pose proof (run_playing_timer_xs evs (flap start) H) as U.
  change (timerXs (flap start)) with (0, @nil Z) in U.
  unfold timerXs in U.
  split; [ | split ]; intro N; rewrite N in U.
  - assert (V : Nat.iter (Z.to_nat PIPE_DISTANCE) xsTick (0, [])
                = (PIPE_DISTANCE, [])) by (vm_compute; reflexivity).
    rewrite V in U. injection U as T X.
    apply map_eq_nil in X. split; [ exact X | exact T ].
  - assert (V : Nat.iter (Z.to_nat (PIPE_DISTANCE + 1)) xsTick (0, [])
                = (0, [WIDTH - 2])) by (vm_compute; reflexivity).
    rewrite V in U. injection U as T X. split; [ exact X | exact T ].
  - assert (V : Nat.iter (Z.to_nat (2 * (PIPE_DISTANCE + 1))) xsTick (0, [])
                = (0, [WIDTH - 2 * (PIPE_DISTANCE + 2); WIDTH - 2]))
      by (vm_compute; reflexivity).
    rewrite V in U. injection U as T X. split; [ exact X | exact T ].
Qed.

Lemma first_pipe_after_timer_exceeds_distance_witness :
  alwaysPlaying (flap start) (tl (firstn 291 (steadyPlay 9))) = true
  /\ ticks (tl (firstn 291 (steadyPlay 9))) = Z.to_nat (2 * (PIPE_DISTANCE + 1))
  /\ map Pipe.x (pipes (run start (Activate :: tl (firstn 291 (steadyPlay 9)))))
     = [WIDTH - 2 * (PIPE_DISTANCE + 2); WIDTH - 2].
Proof.
  assert (A : alwaysPlaying (flap start) (tl (firstn 291 (steadyPlay 9))) = true)
    by (vm_compute; reflexivity).
  assert (N : ticks (tl (firstn 291 (steadyPlay 9)))
              = Z.to_nat (2 * (PIPE_DISTANCE + 1))) by (vm_compute; reflexivity).
  destruct (first_pipe_after_timer_exceeds_distance _ A) as (_ & _ & T).
  split; [ exact A | ]. split; [ exact N | ].
  exact (proj1 (T N)).
Defined.

(** C6 as worded fails: a key press followed by exactly [PIPE_DISTANCE]
    ticks leaves no pipe at all.  With no further key press the bird
    reaches the ground on tick 55, the game is over and the timer stops
    at 55; kept in play by [steadyPlay], the session has its timer at
    [PIPE_DISTANCE] and still no pipe. *)
Lemma one_pipe_after_distance_counterexample :
  (pipes (run start (Activate :: map Tick (repeat (1 # 2)%Q 140))) = []
   /\ gameState (run start (Activate :: map Tick (repeat (1 # 2)%Q 140))) = Over
   /\ pipeSpawnTimer (run start (Activate :: map Tick (repeat (1 # 2)%Q 140))) = 55)
  /\ (ticks (firstn 144 (steadyPlay 9)) = Z.to_nat PIPE_DISTANCE
      /\ pipes (run start (firstn 144 (steadyPlay 9))) = []
      /\ gameState (run start (firstn 144 (steadyPlay 9))) = Game
      /\ pipeSpawnTimer (run start (firstn 144 (steadyPlay 9))) = PIPE_DISTANCE).
Proof.
  split.
  - split; [ vm_compute; reflexivity | ].
    split; vm_compute; reflexivity.
  - split; [ vm_compute; reflexivity | ].
    split; [ vm_compute; reflexivity | ].
    split; vm_compute; reflexivity.
Qed.

(** * Asset loading *)

Lemma loaded_counts (total : Z) (n : nat) :
  loaded (Nat.iter n (assetLoaded total) loaderInit) = Z.of_nat n.
Proof.
  induction n as [ | k IH ]; [ reflexivity | ].
  rewrite Nat.iter_succ. unfold assetLoaded at 1. cbn [loaded]. rewrite IH. lia.
Qed.

(** X1.  However many load handlers fire, the callback of [loadAssets]
    runs at most once: it has run exactly when the number of handler
    calls has reached [total], and never when [total] is zero.  For the
    script's tables [total] counts the 8 + 5 keys and is 13, while 24
    assets are requested, so the game starts on the thirteenth load with
    eleven assets still to come. *)
Theorem loadAssets_starts_once_at_key_count :
  forall (sp : list (string * SpriteSource)) (au : list (string * string))
         (n : nat),
    started (Nat.iter n (assetLoaded (totalOf sp au)) loaderInit)
    = (if (1 <=? totalOf sp au) && (totalOf sp au <=? Z.of_nat n)
       then 1%nat else 0%nat)
    /\ totalOf spriteNames audioNames = 13
    /\ handlersOf spriteNames audioNames = 24%nat.
Proof.
  intros sp au n. split; [ | split; reflexivity ].
  generalize (totalOf sp au). intro total.
  induction n as [ | k IH ].
  - cbn [Nat.iter loaderInit started].
    destruct (1 <=? total) eqn:A, (total <=? Z.of_nat 0) eqn:B;
      try reflexivity.
    apply Z.leb_le in A, B. lia.
  - rewrite Nat.iter_succ. unfold assetLoaded at 1. cbn [started loaded].
    rewrite loaded_counts, IH.
    destruct (Z.of_nat k + 1 =? total) eqn:E;
      destruct (1 <=? total) eqn:A;
      destruct (total <=? Z.of_nat k) eqn:B;
      destruct (total <=? Z.of_nat (S k)) eqn:C;
      cbn [andb]; try reflexivity;
      try apply Z.eqb_eq in E; try apply Z.eqb_neq in E;
      try apply Z.leb_le in A; try apply Z.leb_gt in A;
      try apply Z.leb_le in B; try apply Z.leb_gt in B;
      try apply Z.leb_le in C; try apply Z.leb_gt in C; lia.
Qed.

(** X2.  Every cue the game asks [playAudio] for is a key of [audios],
    so the guard of line 197 never drops a cue. *)
Theorem every_cue_has_its_audio :
  forall c : Sound, audiosHas (cueName c) = true.
Proof. intro c. destruct c; reflexivity. Qed.

(** * Collisions *)

Lemma checkPipe_state s p :
  gameState (fst (checkPipe s p))
  = if collides (bird s) p then Over else gameState s.
Proof.
  unfold checkPipe, collides.
  destruct (inPipeXRange (bird s) p && outsideGap (bird s) p); simpl;
    destruct (justPassed (bird s) p); reflexivity.
Qed.

Lemma checkPipe_sounds s p :
  sounds (fst (checkPipe s p)) = sounds s ++ pipeCues (bird s) p.
Proof.
  unfold checkPipe, pipeCues, collides.
  destruct (inPipeXRange (bird s) p && outsideGap (bird s) p); simpl;
    destruct (justPassed (bird s) p); simpl;
    rewrite <- ?app_assoc; try reflexivity.
  symmetry. apply app_nil_r.
Qed.

Lemma checkPipes_state ps :
  forall s,
    gameState (fst (checkPipes s ps))
    = if existsb (collides (bird s)) ps then Over else gameState s.
Proof.
  induction ps as [ | p rest IH ]; intro s; simpl; [ reflexivity | ].
  pose proof (checkPipe_state s p) as M.
  pose proof (checkPipe_frame s p) as F.
  destruct (checkPipe s p) as [s1 p']. simpl in M, F.
  specialize (IH s1).
  destruct (checkPipes s1 rest) as [s2 rest']. simpl in *.
  destruct F as (B & _). rewrite IH, M, B.
  destruct (collides (bird s) p), (existsb (collides (bird s)) rest); reflexivity.
Qed.

Lemma checkPipes_sounds ps :
  forall s,
    sounds (fst (checkPipes s ps))
    = sounds s ++ flat_map (pipeCues (bird s)) ps.
Proof.
  induction ps as [ | p rest IH ]; intro s; simpl.
  - symmetry. apply app_nil_r.
  - pose proof (checkPipe_sounds s p) as M.
    pose proof (checkPipe_frame s p) as F.
    destruct (checkPipe s p) as [s1 p']. simpl in M, F.
    specialize (IH s1).
    destruct (checkPipes s1 rest) as [s2 rest']. simpl in *.
    destruct F as (B & _). rewrite IH, M, B, app_assoc. reflexivity.
Qed.

Lemma collisions_state s :
  gameState (collisions s)
  = if existsb (collides (bird s)) (pipes s) then Over else gameState s.
Proof.
  unfold collisions. pose proof (checkPipes_state (pipes s) s) as M.
  destruct (checkPipes s (pipes s)) as [s1 ps]. exact M.
Qed.

Lemma collisions_sounds s :
  sounds (collisions s) = sounds s ++ flat_map (pipeCues (bird s)) (pipes s).
Proof.
  unfold collisions. pose proof (checkPipes_sounds (pipes s) s) as M.
  destruct (checkPipes s (pipes s)) as [s1 ps]. exact M.
Qed.

Lemma groundCollision_state s :
  gameState (groundCollision s)
  = if hitsGround (bird s) then Over else gameState s.
Proof.
  unfold groundCollision, hitsGround. case_ground; reflexivity.
Qed.

Lemma groundCollision_sounds s :
  sounds (groundCollision s)
  = sounds s ++ (if hitsGround (bird s) then [Hit; DieLater] else []).
Proof.
  unfold groundCollision, hitsGround. case_ground; simpl.
  - rewrite <- app_assoc. reflexivity.
  - symmetry. apply app_nil_r.
Qed.

Lemma pipesLogic_state s r : gameState (pipesLogic s r) = gameState s.
Proof.
  unfold pipesLogic, spawnStep. simpl.
  destruct (PIPE_DISTANCE <? pipeSpawnTimer s + 1); reflexivity.
Qed.

Lemma pipesLogic_sounds s r : sounds (pipesLogic s r) = sounds s.
Proof.
  unfold pipesLogic, spawnStep. simpl.
  destruct (PIPE_DISTANCE <? pipeSpawnTimer s + 1); reflexivity.
Qed.

Lemma collides_ext b b' p :
  Bird.x b = Bird.x b' -> Bird.y b = Bird.y b' -> Bird.radius b = Bird.radius b' ->
  collides b p = collides b' p.
Proof.
  intros X Y R. unfold collides, inPipeXRange, outsideGap.
  rewrite X, Y, R. reflexivity.
Qed.

Lemma collides_marked b q p :
  collides b (markPassed q p) = collides b p.
Proof.
  unfold markPassed. destruct (justPassed q p); reflexivity.
Qed.

Lemma existsb_collides_marked b q ps :
  existsb (collides b) (map (markPassed q) ps) = existsb (collides b) ps.
Proof.
  induction ps as [ | p rest IH ]; simpl; [ reflexivity | ].
  rewrite collides_marked, IH. reflexivity.
Qed.

(** The game state and the cue log at the end of a tick in state
    [Game], in terms of the bird after the physics step and of the pipes
    as the tick leaves them. *)
Lemma update_Game_state s r :
  gameState s = Game ->
  gameState (update s r)
  = if existsb (collides (birdPhysics (bird s))) (pipes (update s r))
       || hitsGround (birdPhysics (bird s))
    then Over else Game.
Proof.
  intro G. rewrite (update_Game_pipes s r G), existsb_collides_marked.
  rewrite (update_Game s r G).
  change (gameState (setBaseX ?a ?b)) with (gameState a).
  unfold playTick.
  rewrite groundCollision_state, collisions_bird, pipesLogic_bird.
  rewrite collisions_state, pipesLogic_bird, pipesLogic_state.
  rewrite (pipesLogic_pipes_ext
             (setBird (setFrame s (frame s + 1))
                      (birdPhysics (bird (setFrame s (frame s + 1))))) s r
             eq_refl eq_refl).
  cbn [bird setBird setFrame gameState]. rewrite G.
  destruct (existsb (collides (birdPhysics (bird s))) (pipes (pipesLogic s r))),
    (hitsGround (birdPhysics (bird s))); reflexivity.
Qed.

Lemma update_Game_sounds s r :
  gameState s = Game ->
  sounds (update s r)
  = sounds s
    ++ flat_map (pipeCues (birdPhysics (bird s))) (pipes (pipesLogic s r))
    ++ (if hitsGround (birdPhysics (bird s)) then [Hit; DieLater] else []).
Proof.
  intro G. rewrite (update_Game s r G).
  change (sounds (setBaseX ?a ?b)) with (sounds a).
  unfold playTick.
  rewrite groundCollision_sounds, collisions_bird, pipesLogic_bird.
  rewrite collisions_sounds, pipesLogic_bird, pipesLogic_sounds.
  rewrite (pipesLogic_pipes_ext
             (setBird (setFrame s (frame s + 1))
                      (birdPhysics (bird (setFrame s (frame s + 1))))) s r
             eq_refl eq_refl).
  cbn [bird setBird setFrame sounds]. rewrite app_assoc. reflexivity.
Qed.

Lemma collides_spec b p :
  collides b p = true
  <-> (Pipe.x p < Bird.x b + Bird.radius b
       /\ Bird.x b - Bird.radius b < Pipe.x p + PIPE_WIDTH)
      /\ ((Bird.y b - inject_Z (Bird.radius b) < inject_Z (Pipe.top p))%Q
          \/ (inject_Z (Pipe.bottom p) < Bird.y b + inject_Z (Bird.radius b))%Q).
Proof.
  unfold collides, inPipeXRange, outsideGap.
  rewrite !andb_true_iff, orb_true_iff, !Z.ltb_lt, !Qltb_lt. tauto.
Qed.

(** X3.  A tick taken in state [Game] ends in [Over] exactly when, with
    the bird where the physics step puts it, the bird's box reaches
    below [BASE_Y] or overlaps in [x] a pipe of the session while
    reaching above the pipe's [top] or below its [bottom]; otherwise the
    game stays in [Game].  There is no upper limit: however high the
    bird is, the top test still applies. *)
Theorem tick_ends_game_exactly_on_collision :
  forall (s : Session) (r : Q),
    gameState s = Game ->
    (gameState (update s r) = Over
     <-> ((inject_Z BASE_Y
           < Bird.y (bird s) + (Bird.vy (bird s) + GRAVITY)
             + inject_Z (Bird.radius (bird s)))%Q
          \/ exists p,
               In p (pipes (update s r))
               /\ (Pipe.x p < Bird.x (bird s) + Bird.radius (bird s)
                   /\ Bird.x (bird s) - Bird.radius (bird s)
                      < Pipe.x p + PIPE_WIDTH)
               /\ ((Bird.y (bird s) + (Bird.vy (bird s) + GRAVITY)
                    - inject_Z (Bird.radius (bird s))
                    < inject_Z (Pipe.top p))%Q
                   \/ (inject_Z (Pipe.bottom p)
                       < Bird.y (bird s) + (Bird.vy (bird s) + GRAVITY)
                         + inject_Z (Bird.radius (bird s)))%Q)))
    /\ (gameState (update s r) = Over \/ gameState (update s r) = Game).
Proof.
  intros s r G. rewrite (update_Game_state s r G).
  destruct (existsb (collides (birdPhysics (bird s))) (pipes (update s r))) eqn:E;
    destruct (hitsGround (birdPhysics (bird s))) eqn:H; cbn [orb];
    (split; [ | tauto ]).
  - split; [ intros _ | reflexivity ].
    left. apply Qltb_lt in H. exact H.
  - split; [ intros _ | reflexivity ].
    right. apply existsb_exists in E. destruct E as (p & I & C).
    exists p. split; [ exact I | ]. apply collides_spec in C. exact C.
  - split; [ intros _ | reflexivity ].
    left. apply Qltb_lt in H. exact H.
  - split; [ discriminate | ].
    intros [ L | (p & I & C) ].
    + apply Qltb_lt in L. unfold hitsGround in H. simpl in H. congruence.
    + assert (C' : collides (birdPhysics (bird s)) p = true)
        by (apply collides_spec; exact C).
      assert (X : existsb (collides (birdPhysics (bird s))) (pipes (update s r))
                  = true) by (apply existsb_exists; exists p; tauto).
      congruence.
Qed.

Lemma tick_ends_game_exactly_on_collision_witness :
  gameState (run start (Activate :: map Tick (repeat (1 # 2)%Q 54))) = Game
  /\ gameState (update (run start (Activate :: map Tick (repeat (1 # 2)%Q 54)))
                       (1 # 2)%Q) = Over.
Proof.
  assert (G : gameState (run start (Activate :: map Tick (repeat (1 # 2)%Q 54)))
              = Game) by (vm_compute; reflexivity).
  split; [ exact G | ].
  destruct (tick_ends_game_exactly_on_collision _ (1 # 2)%Q G) as (I & _).
  apply I. left. vm_compute. reflexivity.
Defined.

(** * The cue log *)

Lemma countCue_app c a b :
  countCue c (a ++ b) = (countCue c a + countCue c b)%nat.
Proof. unfold countCue. rewrite filter_app, length_app. reflexivity. Qed.

Lemma countCue_pipeCues b ps :
  countCue Hit (flat_map (pipeCues b) ps) = length (filter (collides b) ps)
  /\ countCue DieLater (flat_map (pipeCues b) ps) = length (filter (collides b) ps)
  /\ countCue Point (flat_map (pipeCues b) ps) = length (filter (justPassed b) ps)
  /\ countCue Wing (flat_map (pipeCues b) ps) = 0%nat
  /\ countCue Swoosh (flat_map (pipeCues b) ps) = 0%nat.
Proof.
  induction ps as [ | p rest (A & B & C & D & E) ]; [ repeat split | ].
  cbn [flat_map filter]. rewrite !countCue_app, A, B, C, D, E.
  unfold pipeCues.
  destruct (collides b p), (justPassed b p); cbn; repeat split; lia.
Qed.

(** What one tick adds to the cue log. *)
Lemma update_cues s r :
  exists cues,
    sounds (update s r) = sounds s ++ cues
    /\ countCue Hit cues = countCue DieLater cues
    /\ Z.of_nat (countCue Point cues) = score (update s r) - score s
    /\ countCue Wing cues = 0%nat
    /\ countCue Swoosh cues = 0%nat
    /\ (gameState (update s r) = gameState s \/ (1 <= countCue Hit cues)%nat).
Proof.
  destruct (STATE_eqb (gameState s) Game) eqn:E.
  - apply STATE_eqb_eq in E.
    exists (flat_map (pipeCues (birdPhysics (bird s))) (pipes (pipesLogic s r))
            ++ (if hitsGround (birdPhysics (bird s)) then [Hit; DieLater] else [])).
    destruct (countCue_pipeCues (birdPhysics (bird s)) (pipes (pipesLogic s r)))
      as (A & B & C & D & F).
    split; [ apply update_Game_sounds; exact E | ].
    rewrite !countCue_app, A, B, C, D, F.
    split; [ destruct (hitsGround (birdPhysics (bird s))); reflexivity | ].
    split.
    { rewrite (update_Game_score s r E).
      rewrite (filter_ext (justPassed (birdPhysics (bird s))) (justPassed (bird s)))
        by (intro p; apply justPassed_ext; reflexivity).
      destruct (hitsGround (birdPhysics (bird s))); cbn; lia. }
    split; [ destruct (hitsGround (birdPhysics (bird s))); reflexivity | ].
    split; [ destruct (hitsGround (birdPhysics (bird s))); reflexivity | ].
    rewrite (update_Game_state s r E), (update_Game_pipes s r E),
      existsb_collides_marked, E.
    destruct (hitsGround (birdPhysics (bird s))).
    + right. cbn. lia.
    + rewrite orb_false_r.
      destruct (existsb (collides (birdPhysics (bird s))) (pipes (pipesLogic s r)))
        eqn:X; [ right | left; reflexivity ].
      apply existsb_exists in X. destruct X as (p & I & C').
      assert (J : In p (filter (collides (birdPhysics (bird s)))
                               (pipes (pipesLogic s r))))
        by (apply filter_In; split; assumption).
      destruct (filter (collides (birdPhysics (bird s))) (pipes (pipesLogic s r)));
        [ contradiction | cbn; lia ].
  - assert (N : gameState s <> Game)
      by (intro G; apply STATE_eqb_eq in G; congruence).
    exists []. rewrite (update_idle s r N). cbn.
    rewrite app_nil_r. repeat split; try lia. left. reflexivity.
Qed.

(** What one key press adds to the cue log. *)
Lemma flap_cues s :
  exists c,
    sounds (flap s) = sounds s ++ [c]
    /\ (c = Wing /\ gameState s <> Over \/ c = Swoosh /\ gameState s = Over).
Proof.
  unfold flap. destruct (gameState s) eqn:E.
  - exists Wing. split; [ reflexivity | left; split; [ reflexivity | discriminate ] ].
  - exists Wing. split; [ reflexivity | left; split; [ reflexivity | discriminate ] ].
  - exists Swoosh. split; [ reflexivity | right; split; reflexivity ].
Qed.

(** X4.  A tick only appends to the cue log, and what it appends has as
    many ['hit'] cues as scheduled ['die'] cues, as many ['point'] cues
    as the score grew, and no ['wing'] or ['swoosh']; the game state
    changes in a tick only if a ['hit'] is among them. *)
Theorem tick_cues_match_score_and_hits :
  forall (s : Session) (r : Q),
    exists cues : list Sound,
      sounds (update s r) = sounds s ++ cues
      /\ countCue Hit cues = countCue DieLater cues
      /\ Z.of_nat (countCue Point cues) = score (update s r) - score s
      /\ countCue Wing cues = 0%nat
      /\ countCue Swoosh cues = 0%nat
      /\ (gameState (update s r) = gameState s \/ (1 <= countCue Hit cues)%nat).
Proof. exact update_cues. Qed.

(** X5.  Over any sequence of events the cue log only grows; in what is
    added every ['hit'] has its scheduled ['die'], and the key presses
    account for the ['wing'] and ['swoosh'] cues, one cue per press. *)
Theorem run_cues_pair_hits_and_count_presses :
  forall (evs : list Event) (s : Session),
    exists cues : list Sound,
      sounds (run s evs) = sounds s ++ cues
      /\ countCue Hit cues = countCue DieLater cues
      /\ (ticks evs + (countCue Wing cues + countCue Swoosh cues)
          = length evs)%nat.
Proof.
  induction evs as [ | e rest IH ]; intro s.
  - exists []. cbn. rewrite app_nil_r. repeat split.
  - rewrite run_cons. destruct (IH (step s e)) as (cs & S & H & N).
    destruct e as [ r | ]; cbn [step] in *.
    + destruct (update_cues s r) as (c1 & S1 & H1 & _ & W1 & Z1 & _).
      exists (c1 ++ cs). rewrite S, S1, app_assoc, !countCue_app.
      split; [ reflexivity | ]. cbn [ticks length]. lia.
    + destruct (flap_cues s) as (c & S1 & D).
      exists ([c] ++ cs). rewrite S, S1, app_assoc, !countCue_app.
      split; [ reflexivity | ]. cbn [ticks length].
      destruct D as [ (-> & _) | (-> & _) ]; cbn; lia.
Qed.

(** * The bird and the counters in reachable sessions *)

Lemma birdPhysics_frame_Downflap b :
  (JUMP <= Bird.vy b)%Q -> Bird.frame (birdPhysics b) = Downflap.
Proof.
  intro V. unfold birdPhysics. cbn [Bird.frame].
  assert (L : Qle_bool JUMP (Bird.vy b + GRAVITY) = true).
  { apply Qle_bool_iff. unfold GRAVITY. lra. }
  rewrite L. reflexivity.
Qed.

Lemma birdPhysics_rot b :
  (JUMP <= Bird.vy b)%Q ->
  (- (17 # 40) <= Bird.rot (birdPhysics b) <= PI_4)%Q.
Proof.
  intro V. unfold birdPhysics. cbn [Bird.rot]. split.
  - apply Q.min_glb.
    + unfold PI_4. apply Qle_bool_iff. reflexivity.
    + unfold JUMP, GRAVITY in *. unfold Qdiv.
      setoid_replace (/ 10)%Q with (1 # 10)%Q by reflexivity. lra.
  - apply Q.le_min_l.
Qed.

Lemma groundCollision_birdInv_parts s :
  Bird.radius (bird (groundCollision s)) = Bird.radius (bird s)
  /\ Bird.frame (bird (groundCollision s)) = Bird.frame (bird s)
  /\ Bird.rot (bird (groundCollision s)) = Bird.rot (bird s)
  /\ (Bird.y (bird (groundCollision s))
      + inject_Z (Bird.radius (bird (groundCollision s)))
      <= inject_Z BASE_Y)%Q.
Proof.
  unfold groundCollision.
  destruct (Qltb (inject_Z BASE_Y)
                 (Bird.y (bird s) + inject_Z (Bird.radius (bird s)))) eqn:E;
    cbn [bird gameOver playAudio setState setBird Bird.radius Bird.frame
         Bird.rot Bird.y]; repeat split.
  - lra.
  - apply Qltb_ge in E. exact E.
Qed.

Lemma update_birdInv s r : birdInv s -> birdInv (update s r).
Proof.
  intros (R & V & Y & F & T).
  destruct (STATE_eqb (gameState s) Game) eqn:E.
  - apply STATE_eqb_eq in E. unfold birdInv.
    rewrite (update_Game_vy s r E), (update_Game_bird s r E).
    destruct (groundCollision_birdInv_parts (setBird s (birdPhysics (bird s))))
      as (R' & F' & T' & Y').
    rewrite R', F', T'. cbn [bird setBird].
    split; [ exact R | ].
    split; [ unfold GRAVITY; lra | ].
    split; [ rewrite R' in Y'; exact Y' | ].
    split; [ right; apply birdPhysics_frame_Downflap; exact V | ].
    apply birdPhysics_rot; exact V.
  - assert (N : gameState s <> Game)
      by (intro G; apply STATE_eqb_eq in G; congruence).
    rewrite (update_idle s r N). unfold birdInv.
    cbn [bird setBaseX setFrame]. tauto.
Qed.

Lemma resetGame_birdInv s : birdInv (resetGame s).
Proof.
  unfold birdInv, resetGame.
  cbn [bird Bird.radius Bird.vy Bird.y Bird.frame Bird.rot].
  split; [ reflexivity | ].
  split; [ apply Qle_bool_iff; reflexivity | ].
  split; [ apply Qle_bool_iff; reflexivity | ].
  split; [ left; reflexivity | ].
  split; apply Qle_bool_iff; reflexivity.
Qed.

Lemma flap_birdInv s : birdInv s -> birdInv (flap s).
Proof.
  intros I. unfold flap. destruct (gameState s).
  - destruct (resetGame_birdInv s) as (R & V & Y & F & T).
    unfold birdInv. cbn [bird playAudio setBird setState setVy Bird.radius
                         Bird.vy Bird.y Bird.frame Bird.rot] in *.
    repeat split; try assumption; try apply T. apply Qle_refl.
  - destruct I as (R & V & Y & F & T).
    unfold birdInv. cbn [bird playAudio setBird setVy Bird.radius
                         Bird.vy Bird.y Bird.frame Bird.rot] in *.
    repeat split; try assumption; try apply T. apply Qle_refl.
  - exact (resetGame_birdInv s).
Qed.

Lemma run_birdInv evs : forall s, birdInv s -> birdInv (run s evs).
Proof.
  induction evs as [ | e rest IH ]; intros s I; [ exact I | ].
  rewrite run_cons. apply IH. destruct e as [ r | ]; cbn [step].
  - apply update_birdInv; exact I.
  - apply flap_birdInv; exact I.
Qed.

Lemma reachable_birdInv s : reachable s -> birdInv s.
Proof.
  intros (g & l & evs & _ & _ & E). subst s.
  apply run_birdInv. unfold fresh. apply resetGame_birdInv.
Qed.

(** X6.  In every reachable session the bird is at [x = 60] with radius
    12, its velocity is never below [JUMP], its lower edge never below
    the ground line [BASE_Y] (so [y <= 388]), and its tilt lies between
    -17/40 and [Math.PI / 4] although the code clamps it only from
    above. *)
Theorem bird_stays_in_bounds :
  forall s : Session,
    reachable s ->
    Bird.x (bird s) = 60 /\ Bird.radius (bird s) = 12
    /\ (JUMP <= Bird.vy (bird s))%Q
    /\ (Bird.y (bird s) <= inject_Z (BASE_Y - 12))%Q
    /\ (- (17 # 40) <= Bird.rot (bird s) <= PI_4)%Q.
Proof.
  intros s R.
  destruct (reachable_birdInv s R) as (A & V & Y & _ & T).
  destruct (reachable_pipeInv s R) as (X & _).
  split; [ exact X | ]. split; [ exact A | ]. split; [ exact V | ].
  split; [ | exact T ].
  rewrite A in Y. unfold BASE_Y, HEIGHT, GROUND_HEIGHT in *.
  change (inject_Z 12) with (12 # 1)%Q in Y.
  change (inject_Z (512 - 112)) with (400 # 1)%Q in Y.
  change (inject_Z (512 - 112 - 12)) with (388 # 1)%Q. lra.
Qed.

Lemma bird_stays_in_bounds_witness :
  reachable (run start (firstn 20 (steadyPlay 1)))
  /\ (JUMP <= Bird.vy (bird (run start (firstn 20 (steadyPlay 1)))))%Q.
Proof.
  assert (R : reachable (run start (firstn 20 (steadyPlay 1)))).
  { exists Splash, [], (firstn 20 (steadyPlay 1)).
    split; [ discriminate | ]. split; [ vm_compute; reflexivity | reflexivity ]. }
  split; [ exact R | ].
  exact (proj1 (proj2 (proj2 (bird_stays_in_bounds _ R)))).
Defined.

Lemma birdSpriteIndex_small b :
  Bird.frame b = Upflap \/ Bird.frame b = Downflap -> birdSpriteIndex b = 0.
Proof.
  unfold birdSpriteIndex. intros [ -> | -> ]; reflexivity.
Qed.

(** X7.  In every reachable session [bird.frame] is 0 or 1, so
    [drawBird] always selects [sprites.bird[0]]; and a tick in state
    [Game] always leaves [bird.frame] at 1, the branches for frames 0
    and 2 of lines 212-213 never being taken. *)
Theorem bird_sprite_never_changes :
  forall (s : Session) (r : Q),
    reachable s ->
    (Bird.frame (bird s) = Upflap \/ Bird.frame (bird s) = Downflap)
    /\ birdSpriteIndex (bird s) = 0
    /\ birdSpriteIndex (bird (update s r)) = 0
    /\ (gameState s = Game -> Bird.frame (bird (update s r)) = Downflap).
Proof.
  intros s r R.
  pose proof (reachable_birdInv s R) as I.
  pose proof (update_birdInv s r I) as I'.
  destruct I as (_ & V & _ & F & _). destruct I' as (_ & _ & _ & F' & _).
  split; [ exact F | ].
  split; [ apply birdSpriteIndex_small; exact F | ].
  split; [ apply birdSpriteIndex_small; exact F' | ].
  intro G. rewrite (update_Game_bird s r G).
  destruct (groundCollision_birdInv_parts (setBird s (birdPhysics (bird s))))
    as (_ & F2 & _).
  rewrite F2. cbn [bird setBird]. apply birdPhysics_frame_Downflap. exact V.
Qed.

Lemma bird_sprite_never_changes_witness :
  reachable (flap start) /\ gameState (flap start) = Game
  /\ Bird.frame (bird (update (flap start) (1 # 2)%Q)) = Downflap
  /\ birdSpriteIndex (bird (update (flap start) (1 # 2)%Q)) = 0.
Proof.
  assert (R : reachable (flap start)).
  { exists Splash, [], [Activate].
    split; [ discriminate | ]. split; reflexivity. }
  destruct (bird_sprite_never_changes (flap start) (1 # 2)%Q R)
    as (_ & _ & I & D).
  split; [ exact R | ]. split; [ reflexivity | ].
  split; [ exact (D eq_refl) | exact I ].
Defined.

(** * The counters *)

Lemma pipesLogic_counters s r :
  frame (pipesLogic s r) = frame s /\ baseX (pipesLogic s r) = baseX s.
Proof.
  unfold pipesLogic, spawnStep. simpl.
  destruct (PIPE_DISTANCE <? pipeSpawnTimer s + 1); split; reflexivity.
Qed.

Lemma collisions_counters s :
  frame (collisions s) = frame s /\ baseX (collisions s) = baseX s.
Proof.
  unfold collisions. pose proof (checkPipes_frame (pipes s) s) as F.
  destruct (checkPipes s (pipes s)) as [s1 ps]. simpl in *.
  destruct F as (_ & _ & B & A & _). split; assumption.
Qed.

Lemma groundCollision_counters s :
  frame (groundCollision s) = frame s /\ baseX (groundCollision s) = baseX s.
Proof. unfold groundCollision. case_ground; split; reflexivity. Qed.

Lemma playTick_counters s r :
  frame (playTick s r) = frame s /\ baseX (playTick s r) = baseX s.
Proof.
  unfold playTick.
  destruct (groundCollision_counters
              (collisions (pipesLogic (setBird s (birdPhysics (bird s))) r)))
    as (A1 & B1).
  destruct (collisions_counters (pipesLogic (setBird s (birdPhysics (bird s))) r))
    as (A2 & B2).
  destruct (pipesLogic_counters (setBird s (birdPhysics (bird s))) r) as (A3 & B3).
  rewrite A1, A2, A3, B1, B2, B3. split; reflexivity.
Qed.

(** Whatever the game state, a tick counts one frame and moves the
    ground. *)
Lemma update_counters s r :
  frame (update s r) = frame s + 1
  /\ baseX (update s r) = Z.rem (baseX s - 2) WIDTH.
Proof.
  destruct (STATE_eqb (gameState s) Game) eqn:E.
  - apply STATE_eqb_eq in E. rewrite (update_Game s r E).
    cbn [frame baseX setBaseX].
    destruct (playTick_counters (setFrame s (frame s + 1)) r) as (A & B).
    rewrite A, B. split; reflexivity.
  - assert (N : gameState s <> Game)
      by (intro G; apply STATE_eqb_eq in G; congruence).
    rewrite (update_idle s r N). split; reflexivity.
Qed.

Lemma update_score_grows s r : score s <= score (update s r).
Proof.
  destruct (update_cues s r) as (cues & _ & _ & P & _). lia.
Qed.

Lemma ground_offset_step (f : Z) :
  0 <= f ->
  Z.rem (- ((2 * f) mod WIDTH) - 2) WIDTH = - ((2 * (f + 1)) mod WIDTH).
Proof.
  intro F. unfold WIDTH.
  pose proof (Z.mod_pos_bound (2 * f) 288 eq_refl) as B.
  replace (- ((2 * f) mod 288) - 2) with (- ((2 * f) mod 288 + 2)) by lia.
  rewrite Z.rem_opp_l', Z.rem_mod_nonneg by lia.
  replace (2 * (f + 1)) with (2 * f + 2) by lia.
  rewrite Zplus_mod_idemp_l. reflexivity.
Qed.

Lemma update_counterInv s r : counterInv s -> counterInv (update s r).
Proof.
  intros (S & F & B). destruct (update_counters s r) as (F' & B').
  pose proof (update_score_grows s r) as G.
  unfold counterInv. rewrite F', B', B.
  split; [ lia | ]. split; [ lia | ]. apply ground_offset_step. exact F.
Qed.

Lemma resetGame_counterInv s : counterInv (resetGame s).
Proof. unfold counterInv. cbn. repeat split; lia. Qed.

Lemma flap_counterInv s : counterInv s -> counterInv (flap s).
Proof.
  intro I. unfold flap. destruct (gameState s).
  - exact (resetGame_counterInv s).
  - exact I.
  - exact (resetGame_counterInv s).
Qed.

Lemma run_counterInv evs : forall s, counterInv s -> counterInv (run s evs).
Proof.
  induction evs as [ | e rest IH ]; intros s I; [ exact I | ].
  rewrite run_cons. apply IH. destruct e as [ r | ]; cbn [step].
  - apply update_counterInv; exact I.
  - apply flap_counterInv; exact I.
Qed.

Lemma reachable_counterInv s : reachable s -> counterInv s.
Proof.
  intros (g & l & evs & _ & _ & E). subst s.
  apply run_counterInv. unfold fresh. apply resetGame_counterInv.
Qed.

(** X8.  In every reachable session the ground offset is fixed by the
    frame counter, [baseX = -((2 * frame) mod WIDTH)], a number in
    (-WIDTH, 0]; so of the two copies [drawBase] draws, the first starts
    at or left of the canvas edge and the second exactly [WIDTH]
    further right, at an [x] in (0, WIDTH]. *)
Theorem ground_offset_follows_frame :
  forall s : Session,
    reachable s ->
    0 <= frame s
    /\ baseX s = - ((2 * frame s) mod WIDTH)
    /\ - WIDTH < baseX s <= 0
    /\ exists a b : Z,
         drawBase s = [ (a, BASE_Y); (b, BASE_Y) ]
         /\ a <= 0 < b /\ b = a + WIDTH.
Proof.
  intros s R. destruct (reachable_counterInv s R) as (_ & F & B).
  pose proof (Z.mod_pos_bound (2 * frame s) WIDTH eq_refl) as M.
  split; [ exact F | ]. split; [ exact B | ]. split; [ lia | ].
  exists (baseX s), (baseX s + WIDTH).
  split; [ reflexivity | ]. lia.
Qed.

Lemma ground_offset_follows_frame_witness :
  reachable (run start (map Tick (repeat (1 # 2)%Q 150)))
  /\ frame (run start (map Tick (repeat (1 # 2)%Q 150))) = 150
  /\ baseX (run start (map Tick (repeat (1 # 2)%Q 150))) = - 12.
Proof.
  assert (R : reachable (run start (map Tick (repeat (1 # 2)%Q 150)))).
  { exists Splash, [], (map Tick (repeat (1 # 2)%Q 150)).
    split; [ discriminate | ]. split; [ vm_compute; reflexivity | reflexivity ]. }
  destruct (ground_offset_follows_frame _ R) as (_ & B & _).
  split; [ exact R | ].
  assert (F : frame (run start (map Tick (repeat (1 # 2)%Q 150))) = 150)
    by (vm_compute; reflexivity).
  split; [ exact F | ]. rewrite B, F. reflexivity.
Defined.

(** * The score display *)

Lemma digitsOf_range u : Forall (fun d => 0 <= d <= 9) (digitsOf u).
Proof. induction u; cbn [digitsOf]; constructor; try assumption; lia. Qed.

Lemma digitsOf_revapp u : forall v,
  digitsOf (Decimal.revapp u v) = rev (digitsOf u) ++ digitsOf v.
Proof.
  induction u; intro v; cbn [Decimal.revapp digitsOf rev];
    [ reflexivity | rewrite IHu, <- app_assoc; reflexivity .. ].
Qed.

Lemma of_lu_digits u :
  Z.of_N (DecimalPos.Unsigned.of_lu u)
  = fold_right (fun d acc => d + 10 * acc) 0 (digitsOf u).
Proof.
  induction u; cbn [DecimalPos.Unsigned.of_lu digitsOf fold_right];
    [ reflexivity | rewrite <- IHu; lia .. ].
Qed.

Lemma digitsValue_rev ds :
  digitsValue ds = fold_right (fun d acc => d + 10 * acc) 0 (rev ds).
Proof.
  unfold digitsValue. rewrite <- fold_left_rev_right.
  induction (rev ds) as [ | d rest IH ]; cbn [fold_right]; [ reflexivity | ].
  rewrite IH. lia.
Qed.

Lemma digitsValue_of_uint u :
  digitsValue (digitsOf u) = Z.of_N (Pos.of_uint u).
Proof.
  rewrite DecimalPos.Unsigned.of_uint_alt, of_lu_digits, digitsValue_rev.
  unfold Decimal.rev. rewrite digitsOf_revapp. cbn [digitsOf].
  rewrite app_nil_r. reflexivity.
Qed.

Lemma scoreDigits_nonneg (n : Z) :
  0 <= n ->
  exists ds, scoreDigits n = Some ds /\ ds <> []
             /\ Forall (fun d => 0 <= d <= 9) ds /\ digitsValue ds = n.
Proof.
  intro N. unfold scoreDigits. destruct n as [ | p | p ]; [ | | lia ].
  - exists [0]. repeat split; try discriminate. repeat constructor; lia.
  - cbn [Z.to_int]. exists (digitsOf (Pos.to_uint p)).
    split; [ reflexivity | ].
    split.
    { pose proof (DecimalPos.Unsigned.to_uint_nonnil p) as NN.
      destruct (Pos.to_uint p); cbn [digitsOf]; congruence. }
    split; [ apply digitsOf_range | ].
    rewrite digitsValue_of_uint, DecimalPos.Unsigned.of_to. reflexivity.
Qed.

Lemma glyphsWidth_cons w d ds :
  glyphsWidth w (d :: ds) = w d + glyphsWidth w ds.
Proof.
  unfold glyphsWidth. cbn [fold_left].
  assert (G : forall l a, fold_left (fun acc e => acc + w e) l a
                          = a + fold_left (fun acc e => acc + w e) l 0).
  { induction l as [ | e l IH ]; intro a; cbn [fold_left]; [ lia | ].
    rewrite (IH (a + w e)), (IH (0 + w e)). lia. }
  rewrite (G ds (0 + w d)). lia.
Qed.

Lemma tilesRow_end w calls : forall x xe xe',
  xe == xe' -> tilesRow w x calls xe -> tilesRow w x calls xe'.
Proof.
  induction calls as [ | [[d x'] y] rest IH ]; intros x xe xe' E T;
    cbn [tilesRow] in *.
  - rewrite <- E. exact T.
  - destruct T as (A & B & C & D). repeat split; try assumption; try apply C.
    eapply IH; eassumption.
Qed.

Lemma placeGlyphs_tiles w ds : forall x,
  Forall (fun d => 0 <= d <= 9) ds ->
  tilesRow w x (placeGlyphs w x ds) (x + inject_Z (glyphsWidth w ds)).
Proof.
  induction ds as [ | d rest IH ]; intros x F; cbn [placeGlyphs tilesRow].
  - unfold glyphsWidth. cbn. ring.
  - inversion F as [ | ? ? D F' ]; subst.
    split; [ reflexivity | ]. split; [ reflexivity | ]. split; [ exact D | ].
    eapply tilesRow_end; [ | apply IH; exact F' ].
    rewrite glyphsWidth_cons, inject_Z_plus. ring.
Qed.

Lemma placeGlyphs_digits w ds : forall x,
  map (fun c => fst (fst c)) (placeGlyphs w x ds) = ds.
Proof.
  induction ds as [ | d rest IH ]; intro x; cbn [placeGlyphs map fst];
    [ reflexivity | rewrite IH; reflexivity ].
Qed.

(** X9.  In every reachable session the score is not negative and
    [drawScore] draws at least one glyph, each a digit 0 to 9 at height
    50; the digits read from left to right are the score in decimal;
    each glyph starts where the one before it ends; and the row is
    centred, its left margin equal to its right margin.  Only for a
    negative score, which no run produces, would the width lookup fail. *)
Theorem drawScore_centres_the_digits :
  forall (w : Z -> Z) (s : Session),
    reachable s ->
    0 <= score s
    /\ (exists (calls : list (Z * Q * Z)) (left right : Q),
          drawScore w s = Some calls
          /\ calls <> []
          /\ digitsValue (map (fun c => fst (fst c)) calls) = score s
          /\ tilesRow w left calls right
          /\ left + right == inject_Z WIDTH)
    /\ (forall t : Session, score t < 0 -> drawScore w t = None).
Proof.
  intros w s R. destruct (reachable_counterInv s R) as (S & _).
  split; [ exact S | ]. split.
  - destruct (scoreDigits_nonneg (score s) S) as (ds & E & NE & F & V).
    unfold drawScore. rewrite E.
    exists (placeGlyphs w ((inject_Z WIDTH - inject_Z (glyphsWidth w ds)) / 2) ds),
      ((inject_Z WIDTH - inject_Z (glyphsWidth w ds)) / 2)%Q,
      ((inject_Z WIDTH - inject_Z (glyphsWidth w ds)) / 2
       + inject_Z (glyphsWidth w ds))%Q.
    split; [ reflexivity | ].
    split; [ destruct ds; [ congruence | discriminate ] | ].
    split; [ rewrite placeGlyphs_digits; exact V | ].
    split; [ apply placeGlyphs_tiles; exact F | ].
    field.
  - intros t N. unfold drawScore, scoreDigits.
    destruct (score t) as [ | p | p ]; [ lia | lia | reflexivity ].
Qed.

Lemma drawScore_centres_the_digits_witness :
  reachable (run start (firstn 290 (steadyPlay 9)))
  /\ 0 <= score (run start (firstn 290 (steadyPlay 9)))
  /\ drawScore (fun _ => 24) (run start (firstn 290 (steadyPlay 9)))
     = Some [ (1, 264 # 2, 50) ].
Proof.
  assert (R : reachable (run start (firstn 290 (steadyPlay 9)))).
  { exists Splash, [], (firstn 290 (steadyPlay 9)).
    split; [ discriminate | ]. split; [ vm_compute; reflexivity | reflexivity ]. }
  destruct (drawScore_centres_the_digits (fun _ => 24) _ R) as (S & _ & _).
  split; [ exact R | ]. split; [ exact S | ].
  vm_compute. reflexivity.
Defined.

(** * More on the pipes *)

Lemma xsFrom_length n : forall a, length (xsFrom a n) = n.
Proof.
  induction n as [ | k IH ]; intro a; cbn [xsFrom length];
    [ reflexivity | rewrite IH; reflexivity ].
Qed.

(** X10.  A reachable session never holds more than two pipes, and each
    of them has its [x] between [-PIPE_WIDTH], where it is just off the
    canvas, and [WIDTH - 2]. *)
Theorem at_most_two_pipes_on_track :
  forall s : Session,
    reachable s ->
    (length (pipes s) <= 2)%nat
    /\ Forall (fun p => - PIPE_WIDTH <= Pipe.x p <= WIDTH - 2) (pipes s).
Proof.
  intros s R.
  destruct (reachable_pipeInv s R) as (_ & T & (n & A & X) & _).
  assert (L : length (pipes s) = n).
  { rewrite <- (length_map Pipe.x), X. apply xsFrom_length. }
  assert (N : (n <= 2)%nat)
    by (unfold firstX, SPACING, PIPE_DISTANCE, PIPE_WIDTH, WIDTH in *; lia).
  split; [ lia | ].
  apply Forall_forall. intros p P.
  assert (I : In (Pipe.x p) (xsFrom (firstX (pipeSpawnTimer s) n) n))
    by (rewrite <- X; apply in_map; exact P).
  destruct (xsFrom_In _ _ _ I) as (i & B & E).
  unfold firstX, SPACING, PIPE_DISTANCE, PIPE_WIDTH, WIDTH in *. nia.
Qed.

Lemma at_most_two_pipes_on_track_witness :
  reachable (run start (firstn 319 (steadyPlay 9)))
  /\ (length (pipes (run start (firstn 319 (steadyPlay 9)))) <= 2)%nat.
Proof.
  assert (R : reachable (run start (firstn 319 (steadyPlay 9)))).
  { exists Splash, [], (firstn 319 (steadyPlay 9)).
    split; [ discriminate | ]. split; [ vm_compute; reflexivity | reflexivity ]. }
  split; [ exact R | ].
  exact (proj1 (at_most_two_pipes_on_track _ R)).
Defined.

(** ** The gaps *)

Lemma gapOk_moved p : gapOk p -> gapOk (movePipe p).
Proof. intro G. exact G. Qed.

Lemma gapOk_marked b p : gapOk p -> gapOk (markPassed b p).
Proof. intro G. unfold markPassed. destruct (justPassed b p); exact G. Qed.

Lemma Forall_shiftOffscreen (P : Pipe.t -> Prop) ps :
  Forall P ps -> Forall P (shiftOffscreen ps).
Proof.
  intro F. destruct ps as [ | p rest ]; [ exact F | ].
  unfold shiftOffscreen. destruct (Pipe.x p <? - PIPE_WIDTH); [ | exact F ].
  inversion F; assumption.
Qed.

Lemma pipesLogic_gaps s r :
  okEvent (Tick r) = true ->
  Forall gapOk (pipes s) -> Forall gapOk (pipes (pipesLogic s r)).
Proof.
  intros O F. cbn [okEvent] in O. apply andb_true_iff in O.
  destruct O as [R0 R1]. apply Qle_bool_iff in R0. apply Qle_bool_iff in R1.
  unfold pipesLogic. cbn [pipes setPipes].
  apply Forall_shiftOffscreen, Forall_map.
  assert (F' : Forall gapOk (pipes (spawnStep s r))).
  { unfold spawnStep, spawnPipe. cbn [pipeSpawnTimer setTimer].
    destruct (PIPE_DISTANCE <? pipeSpawnTimer s + 1);
      cbn [pipes setTimer setPipes]; [ | exact F ].
    apply Forall_app. split; [ exact F | ].
    constructor; [ | constructor ].
    unfold gapOk. cbn [Pipe.top Pipe.bottom].
    pose proof (randomTimes220 r R0 R1) as B.
    change (HEIGHT - GROUND_HEIGHT - PIPE_GAP - 80) with 220.
    unfold PIPE_GAP. lia. }
  eapply Forall_impl; [ | exact F' ]. intros p G. apply gapOk_moved. exact G.
Qed.

Lemma update_gaps s r :
  okEvent (Tick r) = true ->
  Forall gapOk (pipes s) -> Forall gapOk (pipes (update s r)).
Proof.
  intros O F. destruct (STATE_eqb (gameState s) Game) eqn:E.
  - apply STATE_eqb_eq in E. rewrite (update_Game_pipes s r E).
    apply Forall_map.
    eapply Forall_impl; [ | apply (pipesLogic_gaps s r O F) ].
    intros p G. apply gapOk_marked. exact G.
  - assert (N : gameState s <> Game)
      by (intro G; apply STATE_eqb_eq in G; congruence).
    rewrite (update_idle s r N). exact F.
Qed.

Lemma flap_gaps s : Forall gapOk (pipes s) -> Forall gapOk (pipes (flap s)).
Proof.
  intro F. unfold flap. destruct (gameState s); cbn; try constructor. exact F.
Qed.

Lemma run_gaps evs : forall s,
  forallb okEvent evs = true ->
  Forall gapOk (pipes s) -> Forall gapOk (pipes (run s evs)).
Proof.
  induction evs as [ | e rest IH ]; intros s O F; [ exact F | ].
  cbn [forallb] in O. apply andb_true_iff in O. destruct O as [O1 O2].
  rewrite run_cons. apply IH; [ exact O2 | ].
  destruct e as [ r | ]; cbn [step].
  - apply update_gaps; assumption.
  - apply flap_gaps; exact F.
Qed.

Lemma reachable_gaps s : reachable s -> Forall gapOk (pipes s).
Proof.
  intros (g & l & evs & _ & O & E). subst s.
  apply run_gaps; [ exact O | constructor ].
Qed.



(** X12.  In no reachable session are two pipes within the bird's [x]
    range at once: the loop of lines 228-244 never stops early, yet at
    a tick boundary at most one pipe is where the bird could touch it. *)
Theorem one_pipe_in_range_at_a_time :
  forall s : Session,
    reachable s ->
    (length (filter (inPipeXRange (bird s)) (pipes s)) <= 1)%nat.
Proof.
  intros s R.
  destruct (reachable_pipeInv s R) as (BX & T & (n & A & X) & _).
  destruct (reachable_birdInv s R) as (BR & _).
  assert (L : length (pipes s) = n).
  { rewrite <- (length_map Pipe.x), X. apply xsFrom_length. }
  assert (N : (n <= 2)%nat)
    by (unfold firstX, SPACING, PIPE_DISTANCE, PIPE_WIDTH, WIDTH in *; lia).
  destruct (pipes s) as [ | p [ | q [ | z rest ] ] ]; cbn [length] in L.
  - cbn. lia.
  - cbn [filter]. destruct (inPipeXRange (bird s) p); cbn; lia.
  - subst n. cbn [map xsFrom] in X. injection X as XP XQ.
    assert (Q : inPipeXRange (bird s) q = false).
    { unfold inPipeXRange. rewrite BX, BR.
      apply andb_false_iff. left. apply Z.ltb_ge.
      unfold firstX, SPACING, PIPE_DISTANCE, PIPE_WIDTH, WIDTH in *. lia. }
    cbn [filter]. rewrite Q.
    destruct (inPipeXRange (bird s) p); cbn; lia.
  - lia.
Qed.

Lemma one_pipe_in_range_at_a_time_witness :
  reachable (run start (firstn 319 (steadyPlay 9)))
  /\ (length (filter (inPipeXRange (bird (run start (firstn 319 (steadyPlay 9)))))
                     (pipes (run start (firstn 319 (steadyPlay 9))))) <= 1)%nat.
Proof.
  assert (R : reachable (run start (firstn 319 (steadyPlay 9)))).
  { exists Splash, [], (firstn 319 (steadyPlay 9)).
    split; [ discriminate | ]. split; [ vm_compute; reflexivity | reflexivity ]. }
  split; [ exact R | ].
  exact (one_pipe_in_range_at_a_time _ R).
Defined.

(** * Drawing the pipes *)

Local Open Scope string_scope.

(** The two rectangles [drawPipe] covers. *)
Lemma paint_drawPipe (p : Pipe.t) (c : Canvas) :
  current c = identity ->
  paint (drawPipe p) c
  = mkCanvas identity (saved c)
      (painted c
       ++ [ mkPainted "pipeTop" (Pipe.x p) (Pipe.x p + PIPE_WIDTH)
                      (Pipe.top p - PIPE_HEIGHT) (Pipe.top p);
            mkPainted "pipeBottom" (Pipe.x p) (Pipe.x p + PIPE_WIDTH)
                      (Pipe.bottom p) (Pipe.bottom p + PIPE_HEIGHT) ]).
Proof.
  intro I. destruct c as [t st pt]. cbn [current] in I. subst t.
  unfold paint, drawPipe, identity. cbn [fold_left canvasOp current saved painted
    scaleX scaleY originX originY].
  rewrite <- app_assoc. cbn [app].
  unfold PIPE_WIDTH, PIPE_HEIGHT.
  change (52 / 2) with 26. change (320 / 2) with 160.
  change (- (52) / 2) with (-26). change (- (320) / 2) with (-160).
  f_equal. f_equal. f_equal; [ f_equal; lia | ].
  f_equal. f_equal; lia.
Qed.

Lemma paint_app ops1 ops2 c : paint (ops1 ++ ops2) c = paint ops2 (paint ops1 c).
Proof. unfold paint. apply fold_left_app. Qed.

Lemma paint_pipes ps : forall c,
  current c = identity ->
  paint (flat_map drawPipe ps) c
  = mkCanvas identity (saved c)
      (painted c
       ++ flat_map
            (fun p =>
               [ mkPainted "pipeTop" (Pipe.x p) (Pipe.x p + PIPE_WIDTH)
                           (Pipe.top p - PIPE_HEIGHT) (Pipe.top p);
                 mkPainted "pipeBottom" (Pipe.x p) (Pipe.x p + PIPE_WIDTH)
                           (Pipe.bottom p) (Pipe.bottom p + PIPE_HEIGHT) ])
            ps).
Proof.
  induction ps as [ | p rest IH ]; intros c I.
  - destruct c as [t st pt]. cbn in *. subst t. rewrite app_nil_r. reflexivity.
  - cbn [flat_map]. rewrite paint_app, (paint_drawPipe p c I), IH by reflexivity.
    cbn [saved painted]. rewrite <- app_assoc. reflexivity.
Qed.

(** X13.  [drawPipes] leaves the transform and the save stack as it
    found them and paints, for each pipe in order, the upper pipe over
    [x, x + PIPE_WIDTH] from [top - PIPE_HEIGHT] down to [top], and the
    lower pipe over the same columns from [bottom] down to
    [bottom + PIPE_HEIGHT].  In a reachable session every upper pipe
    starts above the canvas and every lower pipe ends below the ground
    line, so no pipe shows a free end. *)
Theorem drawPipes_paints_the_two_columns :
  forall s : Session,
    reachable s ->
    paint (drawPipes s) blank
    = mkCanvas identity []
        (flat_map
           (fun p =>
              [ mkPainted "pipeTop" (Pipe.x p) (Pipe.x p + PIPE_WIDTH)
                          (Pipe.top p - PIPE_HEIGHT) (Pipe.top p);
                mkPainted "pipeBottom" (Pipe.x p) (Pipe.x p + PIPE_WIDTH)
                          (Pipe.bottom p) (Pipe.bottom p + PIPE_HEIGHT) ])
           (pipes s))
    /\ Forall (fun p => Pipe.top p - PIPE_HEIGHT < 0
                        /\ BASE_Y < Pipe.bottom p + PIPE_HEIGHT)
              (pipes s).
Proof.
  intros s R. split.
  - unfold drawPipes. rewrite (paint_pipes (pipes s) blank) by reflexivity.
    reflexivity.
  - eapply Forall_impl; [ | apply (reachable_gaps s R) ].
    intros p (T & B).
    unfold PIPE_GAP, PIPE_HEIGHT, BASE_Y, HEIGHT, GROUND_HEIGHT in *. lia.
Qed.

Lemma drawPipes_paints_the_two_columns_witness :
  reachable (run start (firstn 290 (steadyPlay 9)))
  /\ painted (paint (drawPipes (run start (firstn 290 (steadyPlay 9)))) blank)
     = [ mkPainted "pipeTop" 6 58 (-137) 183;
         mkPainted "pipeBottom" 6 58 283 603 ].
Proof.
  assert (R : reachable (run start (firstn 290 (steadyPlay 9)))).
  { exists Splash, [], (firstn 290 (steadyPlay 9)).
    split; [ discriminate | ]. split; [ vm_compute; reflexivity | reflexivity ]. }
  split; [ exact R | ].
  rewrite (proj1 (drawPipes_paints_the_two_columns _ R)).
  vm_compute. reflexivity.
Defined.

(** X14.  While the bird's box meets the band between the top of the
    canvas and the ground line, the collision test of lines 230-232
    holds for a pipe exactly when the box overlaps one of the two
    rectangles [drawPipes] paints for it. *)
Theorem collision_test_matches_the_drawing :
  forall (b : Bird.t) (p : Pipe.t),
    gapOk p ->
    (0 <= Bird.y b + inject_Z (Bird.radius b))%Q ->
    (Bird.y b - inject_Z (Bird.radius b) <= inject_Z BASE_Y)%Q ->
    (collides b p = true
     <-> exists k, In k (painted (paint (drawPipe p) blank)) /\ overlaps b k).
Proof.
  intros b p (T & B) Y0 Y1.
  rewrite (paint_drawPipe p blank eq_refl). cbn [painted blank app].
  rewrite collides_spec. unfold overlaps.
  assert (TQ : (inject_Z (Pipe.top p - PIPE_HEIGHT) < 0)%Q).
  { change 0%Q with (inject_Z 0). rewrite <- Zlt_Qlt. unfold PIPE_HEIGHT. lia. }
  assert (BQ : (inject_Z BASE_Y < inject_Z (Pipe.bottom p + PIPE_HEIGHT))%Q).
  { rewrite <- Zlt_Qlt.
    unfold PIPE_HEIGHT, PIPE_GAP, BASE_Y, HEIGHT, GROUND_HEIGHT in *. lia. }
  split.
  - intros (X & [ U | L ]).
    + eexists. split; [ left; reflexivity | ]. cbn [xMin xMax yMin yMax].
      repeat split; try apply X; try exact U. lra.
    + eexists. split; [ right; left; reflexivity | ]. cbn [xMin xMax yMin yMax].
      repeat split; try apply X; try exact L. lra.
  - intros (k & [ <- | [ <- | [] ] ] & (X1 & X2 & Y2 & Y3));
      cbn [xMin xMax yMin yMax] in *.
    + split; [ split; assumption | left; exact Y3 ].
    + split; [ split; assumption | right; exact Y2 ].
Qed.

Lemma collision_test_matches_the_drawing_witness :
  gapOk (Pipe.mk 40 183 283 false)
  /\ collides (Bird.mk 60 (170 # 1) 0 1 0 12) (Pipe.mk 40 183 283 false) = true.
Proof.
  assert (G : gapOk (Pipe.mk 40 183 283 false)).
  { unfold gapOk. cbn. unfold PIPE_GAP. lia. }
  split; [ exact G | ].
  apply (collision_test_matches_the_drawing
           (Bird.mk 60 (170 # 1) 0 1 0 12) (Pipe.mk 40 183 283 false) G).
  - vm_compute. discriminate.
  - vm_compute. discriminate.
  - eexists. split; [ left; reflexivity | ].
    unfold overlaps. cbn. repeat split; try lia; reflexivity.
Defined.

Local Close Scope string_scope.

(** * The score and the frame counter *)

Lemma justPassed_count b ps :
  Bird.x b = 60 ->
  Forall (fun p => Pipe.passed p = (Pipe.x p + 2 + PIPE_WIDTH <? Bird.x b)) ps ->
  length (filter (justPassed b) ps)
  = length (filter (fun v => (6 <=? v) && (v <? 8)) (map Pipe.x ps)).
Proof.
  intros BX F. induction F as [ | p rest P _ IH ]; [ reflexivity | ].
  cbn [map filter].
  assert (E : justPassed b p = (6 <=? Pipe.x p) && (Pipe.x p <? 8)).
  { unfold justPassed. rewrite P, BX. unfold PIPE_WIDTH.
    destruct (Pipe.x p + 2 + 52 <? 60) eqn:A;
      destruct (Pipe.x p + 52 <? 60) eqn:B;
      destruct (6 <=? Pipe.x p) eqn:C;
      destruct (Pipe.x p <? 8) eqn:D; try reflexivity;
      try apply Z.ltb_lt in A; try apply Z.ltb_ge in A;
      try apply Z.ltb_lt in B; try apply Z.ltb_ge in B;
      try apply Z.leb_le in C; try apply Z.leb_gt in C;
      try apply Z.ltb_lt in D; try apply Z.ltb_ge in D; lia. }
  rewrite E. destruct ((6 <=? Pipe.x p) && (Pipe.x p <? 8)); cbn [length];
    rewrite IH; reflexivity.
Qed.

Lemma pipesLogic_xs_final s r :
  gameState s = Game ->
  map Pipe.x (pipes (pipesLogic s r)) = map Pipe.x (pipes (update s r)).
Proof.
  intro G. rewrite (update_Game_pipes s r G), map_map.
  apply map_ext. intro p. symmetry. apply markPassed_x.
Qed.

(** One tick in play keeps the relation, also when it ends the game. *)
Lemma update_frameRel s r :
  pipeInv s -> 0 <= frame s -> gameState s = Game ->
  frameRel s -> frameRel (update s r).
Proof.
  intros I F0 G (T & SF & E).
  pose proof (update_pipeInv s r I) as I'.
  pose proof (pipesLogic_marks s r I) as M.
  destruct I as (BX & TB & (n & A & X) & _).
  destruct I' as (_ & TB' & (n' & A' & X') & _).
  pose proof (update_timer_xs s r G) as U. unfold timerXs, xsTick in U.
  destruct (update_counters s r) as (F' & _).
  pose proof (update_Game_score s r G) as SC.
  rewrite (justPassed_count (bird s) _ BX M), (pipesLogic_xs_final s r G), X' in SC.
  assert (L : length (pipes s) = n)
    by (rewrite <- (length_map Pipe.x), X; apply xsFrom_length).
  assert (L' : length (pipes (update s r)) = n')
    by (rewrite <- (length_map Pipe.x), X'; apply xsFrom_length).
  assert (N0 : pipes s = [] <-> n = 0%nat)
    by (rewrite <- L; destruct (pipes s); cbn; split; congruence).
  assert (N0' : pipes (update s r) = [] <-> n' = 0%nat)
    by (rewrite <- L'; destruct (pipes (update s r)); cbn; split; congruence).
  assert (LX : length (map Pipe.x (pipes (update s r))) = n')
    by (rewrite length_map; exact L').
  (* the number of pipes after the tick *)
  assert (K : (PIPE_DISTANCE < pipeSpawnTimer s + 1
               /\ pipeSpawnTimer (update s r) = 0 /\ (1 <= n')%nat)
              \/ (pipeSpawnTimer s + 1 <= PIPE_DISTANCE
                  /\ pipeSpawnTimer (update s r) = pipeSpawnTimer s + 1
                  /\ (n = 0%nat <-> n' = 0%nat))).
  { pose proof (f_equal fst U) as UT. pose proof (f_equal snd U) as UX.
    clear U. cbn [fst snd] in UT, UX.
    destruct (PIPE_DISTANCE <? pipeSpawnTimer s + 1) eqn:C;
      cbn [fst snd] in UT, UX.
    - left. apply Z.ltb_lt in C. split; [ exact C | ]. split; [ exact UT | ].
      destruct (dropFront_keeps_last (map (fun v => v - 2) (map Pipe.x (pipes s)))
                  (WIDTH - 2)) as (front & D); [ vm_compute; discriminate | ].
      rewrite map_app in UX. cbn [map] in UX. rewrite D in UX.
      rewrite UX, length_app in LX. cbn [length] in LX. lia.
    - right. apply Z.ltb_ge in C. split; [ exact C | ]. split; [ exact UT | ].
      rewrite X, xsFrom_moved in UX. rewrite UX in LX.
      destruct n as [ | [ | k ] ]; cbn [xsFrom dropFront] in LX.
      + cbn in LX. lia.
      + assert (D : (firstX (pipeSpawnTimer s) 1 - 2 <? - PIPE_WIDTH) = false).
        { apply Z.ltb_ge.
          unfold firstX, SPACING, PIPE_DISTANCE, PIPE_WIDTH, WIDTH in *. lia. }
        rewrite D in LX. cbn in LX. lia.
      + destruct (firstX (pipeSpawnTimer s) (S (S k)) - 2 <? - PIPE_WIDTH);
          cbn [length] in LX; rewrite ?xsFrom_length in LX; cbn in LX; lia. }
  assert (N2 : (n' <= 2)%nat)
    by (unfold firstX, SPACING, PIPE_DISTANCE, PIPE_WIDTH, WIDTH in *; lia).
  (* the pipes the scoring pass marks *)
  assert (C : length (filter (fun v => (6 <=? v) && (v <? 8))
                             (xsFrom (firstX (pipeSpawnTimer (update s r)) n') n'))
              = if (1 <=? Z.of_nat n') && (pipeSpawnTimer (update s r) =? PIPE_DISTANCE)
                then 1%nat else 0%nat).
  { destruct n' as [ | [ | [ | k ] ] ]; [ reflexivity | | | lia ];
      cbn [xsFrom filter];
      repeat match goal with
             | |- context [?a <=? ?b] => destruct (Z.leb_spec a b)
             | |- context [?a <? ?b] => destruct (Z.ltb_spec a b)
             | |- context [?a =? ?b] => destruct (Z.eqb_spec a b)
             end; cbn [andb length]; try reflexivity;
      unfold firstX, SPACING, PIPE_DISTANCE, PIPE_WIDTH, WIDTH in *; lia. }
  rewrite C in SC.
  unfold frameRel. rewrite F', N0'. rewrite N0 in E.
  unfold PIPE_DISTANCE in *.
  destruct K as [ (K1 & K2 & K3) | (K1 & K2 & K3) ]; rewrite K2 in *.
  - assert (TQ : pipeSpawnTimer s = 140) by lia.
    cbn [Z.eqb andb] in SC. rewrite andb_false_r in SC.
    split; [ | split ].
    + Z.div_mod_to_equations. lia.
    + rewrite SC, SF. Z.div_mod_to_equations. lia.
    + Z.div_mod_to_equations. lia.
  - split; [ | split ].
    + Z.div_mod_to_equations. lia.
    + rewrite SC, SF.
      destruct (Z.leb_spec 1 (Z.of_nat n'));
        destruct (Z.eqb_spec (pipeSpawnTimer s + 1) 140); cbn [andb];
        Z.div_mod_to_equations; lia.
    + Z.div_mod_to_equations. lia.
Qed.

Lemma update_keeps_out_of_Game s r :
  gameState s <> Game -> gameState (update s r) = gameState s.
Proof. intro N. rewrite (update_idle s r N). reflexivity. Qed.

Lemma update_playInv s r :
  pipeInv s -> counterInv s -> playInv s -> playInv (update s r).
Proof.
  intros I (_ & F0 & _) P G'.
  destruct (STATE_eqb (gameState s) Game) eqn:E.
  - apply STATE_eqb_eq in E.
    apply update_frameRel; [ exact I | exact F0 | exact E | exact (P E) ].
  - assert (N : gameState s <> Game)
      by (intro G; apply STATE_eqb_eq in G; congruence).
    rewrite (update_keeps_out_of_Game s r N) in G'. contradiction.
Qed.

Lemma flap_playInv s : playInv s -> playInv (flap s).
Proof.
  intros P G'. unfold flap in *. destruct (gameState s) eqn:E.
  - unfold frameRel. cbn. repeat split; try reflexivity; try discriminate.
  - exact (P E).
  - discriminate.
Qed.

Lemma run_playInv evs : forall s,
  pipeInv s -> counterInv s -> playInv s -> playInv (run s evs).
Proof.
  induction evs as [ | e rest IH ]; intros s I C P; [ exact P | ].
  rewrite run_cons. destruct e as [ r | ]; cbn [step].
  - apply IH; [ apply update_pipeInv | apply update_counterInv
                | apply update_playInv ]; assumption.
  - apply IH; [ apply flap_pipeInv | apply flap_counterInv
                | apply flap_playInv ]; assumption.
Qed.

Lemma reachable_playInv s : reachable s -> playInv s.
Proof.
  intros (g & l & evs & _ & _ & E). subst s.
  apply run_playInv; unfold fresh.
  - apply resetGame_pipeInv.
  - apply resetGame_counterInv.
  - intros _. unfold frameRel. cbn. repeat split; try reflexivity.
Qed.

(** X15.  While a reachable session is in play the frame counter, which
    the starting key press reset, fixes the spawn timer and the score:
    the timer is [frame mod (PIPE_DISTANCE + 1)] and the score is
    [(frame + 1) / (PIPE_DISTANCE + 1) - 1], or 0 while that is
    negative: one point every 141 frames, the first on frame 281.  The
    same holds at the end of the next tick, even if it ends the game. *)
Theorem score_is_fixed_by_frames_played :
  forall (s : Session) (r : Q),
    reachable s ->
    gameState s = Game ->
    (pipeSpawnTimer s = frame s mod (PIPE_DISTANCE + 1)
     /\ score s = Z.max 0 ((frame s + 1) / (PIPE_DISTANCE + 1) - 1))
    /\ (frame (update s r) = frame s + 1
        /\ pipeSpawnTimer (update s r) = (frame s + 1) mod (PIPE_DISTANCE + 1)
        /\ score (update s r)
           = Z.max 0 ((frame s + 1 + 1) / (PIPE_DISTANCE + 1) - 1)).
Proof.
  intros s r R G.
  pose proof (reachable_playInv s R G) as P.
  destruct (reachable_counterInv s R) as (_ & F0 & _).
  pose proof (update_frameRel s r (reachable_pipeInv s R) F0 G P) as P'.
  destruct (update_counters s r) as (F' & _).
  destruct P as (T & S & _). destruct P' as (T' & S' & _).
  rewrite F' in T', S'. repeat split; assumption.
Qed.

Lemma score_is_fixed_by_frames_played_witness :
  reachable (run start (firstn 289 (steadyPlay 9)))
  /\ gameState (run start (firstn 289 (steadyPlay 9))) = Game
  /\ frame (run start (firstn 289 (steadyPlay 9))) = 280
  /\ score (run start (firstn 289 (steadyPlay 9))) = 0
  /\ score (update (run start (firstn 289 (steadyPlay 9))) (13 # 20)%Q) = 1.
Proof.
  assert (R : reachable (run start (firstn 289 (steadyPlay 9)))).
  { exists Splash, [], (firstn 289 (steadyPlay 9)).
    split; [ discriminate | ]. split; [ vm_compute; reflexivity | reflexivity ]. }
  assert (G : gameState (run start (firstn 289 (steadyPlay 9))) = Game)
    by (vm_compute; reflexivity).
  assert (F : frame (run start (firstn 289 (steadyPlay 9))) = 280)
    by (vm_compute; reflexivity).
  destruct (score_is_fixed_by_frames_played _ (13 # 20)%Q R G)
    as ((_ & S) & (_ & _ & S')).
  rewrite F in S, S'.
  split; [ exact R | ]. split; [ exact G | ]. split; [ exact F | ].
  split; [ exact S | exact S' ].
Defined.


(** * The splash screen *)

Lemma update_never_enters_Splash s r :
  gameState (update s r) = Splash -> gameState s = Splash.
Proof.
  intro U. destruct (gameState s) eqn:E; [ reflexivity | | ].
  - rewrite (update_Game_state s r E) in U.
    destruct (existsb (collides (birdPhysics (bird s))) (pipes (update s r))
              || hitsGround (birdPhysics (bird s))); discriminate.
  - assert (N : gameState s <> Game) by congruence.
    rewrite (update_keeps_out_of_Game s r N), E in U. discriminate.
Qed.

Lemma update_splashInv s r : splashInv s -> splashInv (update s r).
Proof.
  intros I U. pose proof (update_never_enters_Splash s r U) as E.
  assert (N : gameState s <> Game) by congruence.
  rewrite (update_idle s r N). exact (I E).
Qed.

Lemma flap_splashInv s : splashInv (flap s).
Proof.
  intro U. unfold flap in *. destruct (gameState s) eqn:E.
  - discriminate.
  - cbn in U. congruence.
  - split; [ reflexivity | ]. split; [ reflexivity | ]. split; reflexivity.
Qed.

Lemma run_splashInv evs : forall s, splashInv s -> splashInv (run s evs).
Proof.
  induction evs as [ | e rest IH ]; intros s I; [ exact I | ].
  rewrite run_cons. apply IH. destruct e as [ r | ]; cbn [step].
  - apply update_splashInv; exact I.
  - apply flap_splashInv.
Qed.

(** X16.  Whenever a reachable session shows the splash screen, the bird
    rests at its start pose (centred, no velocity, no tilt), the score
    is 0, there is no pipe and the spawn timer is 0: a game that ended
    leaves nothing behind once the key press has returned to the
    splash screen. *)
Theorem splash_screen_is_fresh :
  forall s : Session,
    reachable s ->
    gameState s = Splash ->
    bird s = bird start
    /\ (Bird.y (bird s) == inject_Z HEIGHT / 2)%Q
    /\ (Bird.vy (bird s) == 0)%Q
    /\ score s = 0 /\ pipes s = [] /\ pipeSpawnTimer s = 0.
Proof.
  intros s (g & l & evs & _ & _ & E) S. subst s.
  assert (I : splashInv (fresh g l)) by (intros _; repeat split).
  destruct (run_splashInv evs _ I S) as (B & C & P & T).
  rewrite B. repeat split; try assumption; reflexivity.
Qed.

Lemma splash_screen_is_fresh_witness :
  reachable (run start (Activate :: map Tick (repeat (1 # 2)%Q 55) ++ [Activate]))
  /\ gameState (run start (Activate :: map Tick (repeat (1 # 2)%Q 55)
                                   ++ [Activate])) = Splash
  /\ score (run start (Activate :: map Tick (repeat (1 # 2)%Q 55) ++ [Activate]))
     = 0.
Proof.
  assert (R : reachable (run start (Activate :: map Tick (repeat (1 # 2)%Q 55)
                                             ++ [Activate]))).
  { exists Splash, [], (Activate :: map Tick (repeat (1 # 2)%Q 55) ++ [Activate]).
    split; [ discriminate | ]. split; [ vm_compute; reflexivity | reflexivity ]. }
  assert (S : gameState (run start (Activate :: map Tick (repeat (1 # 2)%Q 55)
                                             ++ [Activate])) = Splash)
    by (vm_compute; reflexivity).
  split; [ exact R | ]. split; [ exact S | ].
  exact (proj1 (proj2 (proj2 (proj2 (splash_screen_is_fresh _ R S))))).
Defined.

(** * Free flight *)

Lemma update_stays_Game_y s r :
  gameState s = Game ->
  gameState (update s r) = Game ->
  Bird.y (bird (update s r)) = (Bird.y (bird s) + (Bird.vy (bird s) + GRAVITY))%Q.
Proof.
  intros G G'. rewrite (update_Game_state s r G) in G'.
  destruct (existsb (collides (birdPhysics (bird s))) (pipes (update s r)));
    [ discriminate | ].
  destruct (hitsGround (birdPhysics (bird s))) eqn:H; [ discriminate | ].
  rewrite (update_Game_bird s r G). unfold groundCollision.
  unfold hitsGround in H. cbn [bird setBird]. rewrite H. reflexivity.
Qed.

Lemma free_flight rs : forall s,
  alwaysPlaying s (map Tick rs) = true ->
  gameState (run s (map Tick rs)) = Game ->
  (Bird.y (bird (run s (map Tick rs)))
   == Bird.y (bird s)
      + inject_Z (Z.of_nat (length rs)) * Bird.vy (bird s)
      + GRAVITY * inject_Z (Z.of_nat (length rs))
        * (inject_Z (Z.of_nat (length rs)) + 1) / 2)%Q.
Proof.
  induction rs as [ | r rest IH ]; intros s A F.
  - cbn. field.
  - change (map Tick (r :: rest)) with (Tick r :: map Tick rest) in *.
    apply alwaysPlaying_head in A. destruct A as [G A].
    rewrite run_cons in *. cbn [step] in *.
    assert (G' : gameState (update s r) = Game).
    { destruct rest as [ | r' rest' ]; [ exact F | ].
      change (map Tick (r' :: rest')) with (Tick r' :: map Tick rest') in A.
      apply alwaysPlaying_head in A. apply A. }
    rewrite (IH _ A F), (update_stays_Game_y s r G G'), (update_Game_vy s r G).
    change (length (r :: rest)) with (S (length rest)).
    rewrite Nat2Z.inj_succ. unfold Z.succ. rewrite inject_Z_plus.
    change (inject_Z 1) with 1%Q. field.
Qed.

(** X17.  Over ticks in play with no key press and no collision the
    bird moves on a parabola: after [k] ticks its height is
    [y + k * vy + GRAVITY * k * (k + 1) / 2].  So a flap, which sets
    [vy] to [JUMP], brings the bird back to the height it started from
    after exactly 35 ticks. *)
Theorem free_flight_is_a_parabola :
  forall (s : Session) (rs : list Q),
    alwaysPlaying s (map Tick rs) = true ->
    gameState (run s (map Tick rs)) = Game ->
    (Bird.y (bird (run s (map Tick rs)))
     == Bird.y (bird s)
        + inject_Z (Z.of_nat (length rs)) * Bird.vy (bird s)
        + GRAVITY * inject_Z (Z.of_nat (length rs))
          * (inject_Z (Z.of_nat (length rs)) + 1) / 2)%Q
    /\ (Bird.vy (bird s) == JUMP -> length rs = 35%nat ->
        Bird.y (bird (run s (map Tick rs))) == Bird.y (bird s))%Q.
Proof.
  intros s rs A F. pose proof (free_flight rs s A F) as P.
  split; [ exact P | ].
  intros V L. rewrite P, V, L.
  change (inject_Z (Z.of_nat 35)) with (35 # 1)%Q. unfold JUMP, GRAVITY. field.
Qed.

Lemma free_flight_is_a_parabola_witness :
  alwaysPlaying (flap start) (map Tick (repeat (1 # 2)%Q 35)) = true
  /\ gameState (run (flap start) (map Tick (repeat (1 # 2)%Q 35))) = Game
  /\ (Bird.y (bird (run (flap start) (map Tick (repeat (1 # 2)%Q 35))))
      == Bird.y (bird (flap start)))%Q.
Proof.
  assert (A : alwaysPlaying (flap start) (map Tick (repeat (1 # 2)%Q 35)) = true)
    by (vm_compute; reflexivity).
  assert (G : gameState (run (flap start) (map Tick (repeat (1 # 2)%Q 35))) = Game)
    by (vm_compute; reflexivity).
  split; [ exact A | ]. split; [ exact G | ].
  apply (proj2 (free_flight_is_a_parabola _ _ A G)); reflexivity.
Defined.
